(** * Ringmaster video receiver (src/app/video_receiver_reverse.cc)

    The receiver binds a UDP socket, waits for a [ConfigMsg] from any peer,
    connects to that peer, and then loops forever: parse a datagram,
    acknowledge it, hand it to the decoder, consume every frame that is
    ready.  This development embeds the two functions of the source file
    ([recv_config_msg] and [main]) as a labelled step machine over an
    abstract transport, codec and decoder, and embeds the frame reassembly
    engine the decoder is specified to implement. *)

From Stdlib Require Import NArith ZArith List Ascii String.
From Stdlib.Strings Require Import Byte.
From stdpp Require Import base tactics option list numbers gmap strings sorting.

Open Scope N_scope.

(** * Protocol data (protocol.hh) *)

Module Protocol.

(** Modelled from the spec: protocol.hh is not part of the source slice.
    [main] reads the four fields below from the received [ConfigMsg]. *)
Record ConfigMsg : Type := mkConfigMsg {
  width : N;
  height : N;
  frame_rate : N;
  target_bitrate : N
}.

(** Modelled from the spec: the layout of [Datagram] lives in protocol.hh.
    [main] reads [frame_id] and [frag_id]; the fragment count and the
    payload are the spec's [fragment_count] and [payload_bytes]. *)
Record Datagram : Type := mkDatagram {
  frame_id : N;
  frag_id : N;
  fragment_count : N;
  payload_bytes : list byte
}.

(** Modelled from the spec: an acknowledgment echoes the identifying
    fields of the datagram it is built from, plus a timestamp. *)
Record AckMsg : Type := mkAckMsg {
  ack_frame_id : N;
  ack_frag_id : N;
  ack_ts : N
}.

End Protocol.
Export Protocol.

(** * Frame reassembly engine *)

Module Reassembly.

(** Modelled from the spec: reassembly state of one frame (decoder.hh is
    not part of the source slice): payloads by fragment index, the frame's
    fragment count and a received-count. *)
Record PartialFrame : Type := mkPartialFrame {
  fragments : gmap N (list byte);
  pf_fragment_count : N;
  received : N
}.

(** Modelled from the spec: per-session state of the engine.  The window
    is the widened one the spec allows: any number of frame ids at or after
    [expected_frame_id] may be tracked at once, one [PartialFrame] each. *)
Record ReassemblyState : Type := mkState {
  expected_frame_id : N;
  partial_frames : gmap N PartialFrame
}.

Record CompletionEvent : Type := mkEvent {
  ev_frame_id : N;
  assembled_bytes : list byte
}.

(** Modelled from the spec: [expected_frame_id] starts at the id of the
    first fragment observed and nothing is tracked yet. *)
Definition initial_state (first : Datagram) : ReassemblyState :=
  {| expected_frame_id := frame_id first; partial_frames := ∅ |}.

Definition new_partial (cnt : N) : PartialFrame :=
  {| fragments := ∅; pf_fragment_count := cnt; received := 0 |}.

(** Modelled from the spec: locate or create the [PartialFrame] of a
    fragment; the first fragment seen establishes the fragment count. *)
Definition locate_or_create (st : ReassemblyState) (f : Datagram) : PartialFrame :=
  default (new_partial (fragment_count f)) (partial_frames st !! frame_id f).

(** Modelled from the spec: insert the payload at its index if that index
    is not already present; a duplicate index changes nothing. *)
Definition insert_fragment (pf : PartialFrame) (f : Datagram) : PartialFrame :=
  match fragments pf !! frag_id f with
  | Some _ => pf
  | None =>
      {| fragments := <[frag_id f := payload_bytes f]> (fragments pf);
         pf_fragment_count := pf_fragment_count pf;
         received := N.succ (received pf) |}
  end.

Definition complete (pf : PartialFrame) : bool :=
  received pf =? pf_fragment_count pf.

Definition payload_at (m : gmap N (list byte)) (i : nat) : list byte :=
  default [] (m !! N.of_nat i).

(** Modelled from the spec: the payloads ordered by fragment index. *)
Definition assemble_map (m : gmap N (list byte)) (cnt : nat) : list byte :=
  concat (payload_at m <$> seq 0 cnt).

Definition assemble (pf : PartialFrame) : list byte :=
  assemble_map (fragments pf) (N.to_nat (pf_fragment_count pf)).

(** Frames that survive the completion of frame [fid]: every tracked frame
    with an id up to [fid] is dropped, the completed one included. *)
Definition newer_than (fid : N) (kv : N * PartialFrame) : Prop := fid < kv.1.

#[global] Instance newer_than_dec fid kv : Decision (newer_than fid kv).
Proof. unfold newer_than. apply _. Defined.

(** Modelled from the spec: [ingest_fragment] of the Frame Reassembly
    Engine (decoder.cc is not part of the source slice). *)
Definition ingest_fragment (st : ReassemblyState) (f : Datagram)
  : ReassemblyState * option CompletionEvent :=
  if frame_id f <? expected_frame_id st then (st, None)
  else
    let pf := locate_or_create st f in
    if negb (pf_fragment_count pf =? fragment_count f) then (st, None)
    else
      let pf' := insert_fragment pf f in
      if complete pf' then
        ({| expected_frame_id := N.succ (frame_id f);
            partial_frames := filter (newer_than (frame_id f)) (partial_frames st) |},
         Some {| ev_frame_id := frame_id f; assembled_bytes := assemble pf' |})
      else
        ({| expected_frame_id := expected_frame_id st;
            partial_frames := <[frame_id f := pf']> (partial_frames st) |},
         None).

(** A sequence of ingests, with the completion events in emission order. *)
Fixpoint ingest_all (st : ReassemblyState) (fs : list Datagram)
  : ReassemblyState * list CompletionEvent :=
  match fs with
  | [] => (st, [])
  | f :: fs' =>
      let '(st1, ev) := ingest_fragment st f in
      let '(st2, evs) := ingest_all st1 fs' in
      (st2, option_list ev ++ evs)
  end.

(** The events of a whole session, from its first fragment on. *)
Definition session_events (fs : list Datagram) : list CompletionEvent :=
  match fs with
  | [] => []
  | f :: _ => (ingest_all (initial_state f) fs).2
  end.

(** The four outcomes of an ingest. *)
Inductive ingest_outcome (st : ReassemblyState) (f : Datagram) : ReassemblyState → option CompletionEvent → Prop :=
| outcome_stale :
    frame_id f < expected_frame_id st →
    ingest_outcome st f st None
| outcome_violation (pf : PartialFrame) :
    expected_frame_id st ≤ frame_id f →
    partial_frames st !! frame_id f = Some pf →
    pf_fragment_count pf ≠ fragment_count f →
    ingest_outcome st f st None
| outcome_complete :
    expected_frame_id st ≤ frame_id f →
    pf_fragment_count (locate_or_create st f) = fragment_count f →
    complete (insert_fragment (locate_or_create st f) f) = true →
    ingest_outcome st f
      {| expected_frame_id := N.succ (frame_id f);
         partial_frames := filter (newer_than (frame_id f)) (partial_frames st) |}
      (Some {| ev_frame_id := frame_id f;
               assembled_bytes := assemble (insert_fragment (locate_or_create st f) f) |})
| outcome_partial :
    expected_frame_id st ≤ frame_id f →
    pf_fragment_count (locate_or_create st f) = fragment_count f →
    complete (insert_fragment (locate_or_create st f) f) = false →
    ingest_outcome st f
      {| expected_frame_id := expected_frame_id st;
         partial_frames :=
           <[frame_id f := insert_fragment (locate_or_create st f) f]> (partial_frames st) |}
      None.

(** A fragment is settled in a state when ingesting it can no longer
    change anything: its frame is behind the expected one, or is tracked
    with another fragment count, or is tracked, still incomplete, and
    already holds the fragment's index. *)
Definition settled (f : Datagram) (st : ReassemblyState) : Prop :=
  frame_id f < expected_frame_id st
  ∨ ∃ pf, partial_frames st !! frame_id f = Some pf
          ∧ (pf_fragment_count pf ≠ fragment_count f
             ∨ (is_Some (fragments pf !! frag_id f) ∧ complete pf = false)).

(** The payloads of a list of fragments stored by index, first to last. *)
Definition store_all (l : list Datagram) (m : gmap N (list byte)) : gmap N (list byte) :=
  foldl (λ acc f, <[frag_id f := payload_bytes f]> acc) m l.







(** The fragments a sender cuts a frame into. *)
Definition fragments_of (fid : N) (ps : list (list byte)) : list Datagram :=
  imap (λ i p, {| frame_id := fid; frag_id := N.of_nat i;
                  fragment_count := N.of_nat (length ps);
                  payload_bytes := p |}) ps.

End Reassembly.

(** * The receiver program *)

Module Receiver.

(** ** External collaborators

    The headers the program includes are not part of the source slice;
    what the program calls from them is taken as an interface.  The
    transport calls [bind], [connect] and [send] are taken to succeed; a
    receive delivers the next packet or blocks. *)

(** conversion.hh: [None] stands for the exception the conversion raises. *)
Class Conversion : Type := {
  strict_stoi : string → option Z;
  narrow_cast_uint16 : Z → option N
}.

(** Modelled from the spec: the message kinds of the wire codec; the
    program only ever compares against [CONFIG]. *)
Inductive MsgType : Type := CONFIG | FRAGMENT | ACK.

#[global] Instance MsgType_eq_dec : EqDecision MsgType.
Proof. solve_decision. Defined.

(** A parsed [Msg] object, as far as the program observes it: its [type]
    field and the outcome of [dynamic_pointer_cast<ConfigMsg>]. *)
Record Msg : Type := mkMsg {
  type : MsgType;
  as_config : option ConfigMsg
}.

(** protocol.hh: [Msg::parse_from_string] ([None] is the null pointer),
    [Datagram::parse_from_string] ([None] is a [false] return), the
    timestamp the [AckMsg] constructor stores and
    [AckMsg::serialize_to_string]. *)
Class Codec : Type := {
  parse_msg : list byte → option Msg;
  parse_datagram : list byte → option Datagram;
  ack_timestamp : Datagram → N;
  serialize_ack : AckMsg → list byte
}.

(** decoder.hh: the constructor and the four methods [main] calls. *)
Class DecoderOps (D : Type) : Type := {
  Decoder_new : N → N → Z → string → D;
  set_verbose : D → bool → D;
  add_datagram : D → Datagram → D;
  next_frame_complete : D → bool * D;
  consume_next_frame : D → D
}.

(** ** Program state and observable actions *)

Record Address : Type := mkAddress { ip : string; port : N }.

(** What one [recvfrom] delivers: the sender and the optional payload. *)
Definition Packet : Type := Address * option (list byte).

Inductive exn : Type :=
| bad_optional_access
| conversion_error
| runtime_error (what : string).

Inductive action : Type :=
| PrintUsage (text : string)
| Bind (a : Address)
| LogLocalAddress (a : Address)
| LogWaiting
| LogPeerAddress (a : Address)
| Connect (a : Address)
| LogConfig (c : ConfigMsg)
| Send (data : list byte)
| LogAcked (fid frag : N)
| AddDatagram (d : Datagram)
| ConsumeFrame.

Record Options : Type := mkOptions {
  lazy_level : Z;
  output_path : string;
  verbose : bool
}.

(** Whether an action is a call on the socket. *)
Definition is_socket_action (a : action) : Prop :=
  match a with Bind _ | Connect _ | Send _ => True | _ => False end.

(** Whether an action puts a datagram on the wire. *)
Definition is_send (a : action) : Prop :=
  match a with Send _ => True | _ => False end.

Definition default_options : Options :=
  {| lazy_level := 0; output_path := ""; verbose := false |}.

(** Outcome of a call that may return, throw, or block on the socket
    forever. *)
Inductive result (A : Type) : Type :=
| Ok (a : A)
| Throw (e : exn)
| Block.
Arguments Ok {A} a.
Arguments Throw {A} e.
Arguments Block {A}.

Definition EXIT_FAILURE : Z := 1.

(** ** print_usage (lines 18-29) *)

Definition endl : string := String (ascii_of_nat 10) EmptyString.

Definition usage_text (program_name : string) : string :=
  String.concat endl
    [ ("Usage: " +:+ program_name +:+ " [options] port")%string;
      EmptyString;
      "Options:"%string;
      "--lazy <level>       0: decode and display frames (default)"%string;
      "                     1: decode but not display frames"%string;
      "                     2: neither decode nor display frames"%string;
      "-o, --output <file>  file to output performance results to"%string;
      "-v, --verbose        enable more logging for debugging"%string ]
  +:+ endl.

Definition print_usage (program_name : string) : list action :=
  [PrintUsage (usage_text program_name)].

(** Return values of [getopt_long] the switch distinguishes. *)
Definition opt_L : Z := 76.
Definition opt_o : Z := 111.
Definition opt_v : Z := 118.

(** ** recv_config_msg (lines 31-47) *)

Section Handshake.
Context `{Codec}.

(** The test of line 38 followed by the cast of lines 42-43. *)
Definition config_of (raw : list byte) : option ConfigMsg :=
  match parse_msg raw with
  | None => None
  | Some msg => if decide (type msg = CONFIG) then as_config msg else None
  end.

(** The loop consumes packets until one carries a config; it returns the
    sender, the config and the packets not yet read. *)
Fixpoint recv_config_msg (incoming : list Packet)
  : result (Address * ConfigMsg * list Packet) :=
  match incoming with
  | [] => Block
  | (peer_addr, raw_data) :: rest =>
      match raw_data with
      | None => Throw bad_optional_access
      | Some raw =>
          match parse_msg raw with
          | None => recv_config_msg rest
          | Some msg =>
              if decide (type msg = CONFIG) then
                match as_config msg with
                | Some config_msg => Ok (peer_addr, config_msg, rest)
                | None => recv_config_msg rest
                end
              else recv_config_msg rest
          end
      end
  end.

(** A packet the handshake skips: it has a payload that is not a config. *)
Definition discardable (p : Packet) : Prop :=
  ∃ raw, p.2 = Some raw ∧ config_of raw = None.
End Handshake.

(** ** main (lines 49-147) *)

Section Main.
Context `{Conversion} `{Codec} {D : Type} `{DecoderOps D}.

(** The switch of lines 69-82 over the successive results of
    [getopt_long] (return value and [optarg]) that come before its [-1];
    the end of the list stands for the call that returns [-1]. *)
Inductive parsed : Type :=
| Parsed (o : Options)
| UsageExit
| ParseThrow (e : exn).

Fixpoint parse_options (rs : list (Z * string)) (o : Options) : parsed :=
  match rs with
  | [] => Parsed o
  | (opt, optarg) :: rs' =>
      if (opt =? opt_L)%Z then
        match strict_stoi optarg with
        | Some n =>
            parse_options rs'
              {| lazy_level := n; output_path := output_path o; verbose := verbose o |}
        | None => ParseThrow conversion_error
        end
      else if (opt =? opt_o)%Z then
        parse_options rs'
          {| lazy_level := lazy_level o; output_path := optarg; verbose := verbose o |}
      else if (opt =? opt_v)%Z then
        parse_options rs'
          {| lazy_level := lazy_level o; output_path := output_path o; verbose := true |}
      else UsageExit
  end.

(** Where the steady-state loop stands. *)
Inductive Control : Type :=
| Receiving (dec : D)
| Draining (dec : D)
| Thrown (e : exn).

Record Machine : Type := mkMachine {
  control : Control;
  incoming : list Packet;
  peer : Address;
  log_acks : bool
}.

Inductive Startup : Type :=
| Started (m : Machine)
| Exit (code : Z)
| Uncaught (e : exn)
| Waiting.

(** Lines 85-117: the positional argument, bind, handshake, connect and
    the construction of the decoder. *)
Definition start (program_name : string) (o : Options) (positional : list string)
           (inc : list Packet)
  : list action * Startup :=
  match positional with
  | [port_arg] =>
      match strict_stoi port_arg with
      | None => ([], Uncaught conversion_error)
      | Some p =>
          match narrow_cast_uint16 p with
          | None => ([], Uncaught conversion_error)
          | Some port =>
              let local := {| ip := "0"; port := port |} in
              let pre := [Bind local; LogLocalAddress local; LogWaiting] in
              match recv_config_msg inc with
              | Block => (pre, Waiting)
              | Throw e => (pre, Uncaught e)
              | Ok (peer_addr, config_msg, rest) =>
                  let decoder :=
                    set_verbose
                      (Decoder_new (width config_msg) (height config_msg)
                                   (lazy_level o) (output_path o))
                      (verbose o) in
                  (pre ++ [LogPeerAddress peer_addr; Connect peer_addr;
                           LogConfig config_msg],
                   Started {| control := Receiving decoder;
                              incoming := rest;
                              peer := peer_addr;
                              log_acks := verbose o |})
              end
          end
      end
  | _ => (print_usage program_name, Exit EXIT_FAILURE)
  end.

(** Line 65: the loop ends at the first [-1] that [getopt_long] returns;
    no further call is made, so results behind it are never seen. *)
Fixpoint before_end (rs : list (Z * string)) : list (Z * string) :=
  match rs with
  | [] => []
  | (opt, optarg) :: rs' =>
      if (opt =? -1)%Z then [] else (opt, optarg) :: before_end rs'
  end.

(** [main] up to the main loop.  The trace holds what the program text
    itself does; what [getopt_long] writes to the terminal on its own is
    not part of it. *)
Definition main (program_name : string) (rs : list (Z * string))
           (positional : list string)
           (inc : list Packet) : list action * Startup :=
  match parse_options (before_end rs) default_options with
  | Parsed o => start program_name o positional inc
  | UsageExit => (print_usage program_name, Exit EXIT_FAILURE)
  | ParseThrow e => ([], Uncaught e)
  end.

(** Modelled from the spec: the [AckMsg] constructor echoes the
    identifying fields of the datagram. *)
Definition AckMsg_of (d : Datagram) : AckMsg :=
  {| ack_frame_id := frame_id d; ack_frag_id := frag_id d;
     ack_ts := ack_timestamp d |}.

Definition goto (m : Machine) (c : Control) (rest : list Packet) : Machine :=
  {| control := c; incoming := rest; peer := peer m; log_acks := log_acks m |}.

(** One step of the main loop of lines 120-144: either one pass through
    lines 122-137, or one test of the inner [while] of line 140.  [None]
    is a machine that does not move: blocked in [recv] or terminated by
    an exception. *)
Definition step (m : Machine) : option (list action * Machine) :=
  match control m with
  | Receiving dec =>
      match incoming m with
      | [] => None
      | (_, None) :: rest =>
          Some ([], goto m (Thrown bad_optional_access) rest)
      | (_, Some raw) :: rest =>
          match parse_datagram raw with
          | None =>
              Some ([], goto m (Thrown (runtime_error "failed to parse a datagram")) rest)
          | Some datagram =>
              Some ([Send (serialize_ack (AckMsg_of datagram))]
                      ++ (if log_acks m
                          then [LogAcked (frame_id datagram) (frag_id datagram)]
                          else [])
                      ++ [AddDatagram datagram],
                    goto m (Draining (add_datagram dec datagram)) rest)
          end
      end
  | Draining dec =>
      let '(ready, dec') := next_frame_complete dec in
      if ready
      then Some ([ConsumeFrame], goto m (Draining (consume_next_frame dec')) (incoming m))
      else Some ([], goto m (Receiving dec') (incoming m))
  | Thrown _ => None
  end.

(** At most [n] steps, with the actions performed on the way. *)
Fixpoint run (n : nat) (m : Machine) : list action * Machine :=
  match n with
  | O => ([], m)
  | S n' =>
      match step m with
      | None => ([], m)
      | Some (tr, m') => let '(tr', m'') := run n' m' in (tr ++ tr', m'')
      end
  end.

(** ** Views of a trace *)

Definition is_wire (a : action) : bool :=
  match a with Send _ | AddDatagram _ => true | _ => false end.

Definition sends (tr : list action) : list (list byte) :=
  omap (λ a, match a with Send b => Some b | _ => None end) tr.

Definition added (tr : list action) : list Datagram :=
  omap (λ a, match a with AddDatagram d => Some d | _ => None end) tr.

(** The sends and hand-overs of a trace, in order. *)
Definition wire_view (tr : list action) : list action :=
  List.filter is_wire tr.

(** The acknowledgment and the hand-over of one parsed datagram. *)
Definition ack_then_add (d : Datagram) : list action :=
  [Send (serialize_ack (AckMsg_of d)); AddDatagram d].

(** The datagrams of the packets read so far, up to the first packet
    that has no payload or does not parse. *)
Fixpoint parsed_prefix (ps : list Packet) : list Datagram :=
  match ps with
  | (_, Some raw) :: rest =>
      match parse_datagram raw with
      | Some d => d :: parsed_prefix rest
      | None => []
      end
  | _ => []
  end.

(** The packets a run has taken off the socket. *)
Definition consumed (m m' : Machine) : list Packet :=
  take (length (incoming m) - length (incoming m')) (incoming m).

(** The claim of the spec that a datagram failing validation is dropped
    and the loop goes on with the same decoder. *)
Definition drops_and_continues (m : Machine) (rest : list Packet) : Prop :=
  step m = Some ([], goto m (control m) rest).

(** The inner [while] of lines 140-143 on its own, with a bound on the
    number of tests: the frames it consumed and the decoder it leaves when
    the test says no within the bound. *)
Fixpoint drain (k : nat) (dec : D) : option (nat * D) :=
  match k with
  | O => None
  | S k' =>
      let '(ready, dec') := next_frame_complete dec in
      if ready
      then match drain k' (consume_next_frame dec') with
           | Some (c, dec'') => Some (S c, dec'')
           | None => None
           end
      else Some (O, dec')
  end.

(** The lines the verbose branch of lines 131-134 wrote. *)
Definition acked_logs (tr : list action) : list (N * N) :=
  omap (λ a, match a with LogAcked fid frag => Some (fid, frag) | _ => None end) tr.

(** A packet the main loop accepts: it has a payload and the payload
    parses as a datagram. *)
Definition parses (p : Packet) : Prop :=
  ∃ raw d, p.2 = Some raw ∧ parse_datagram raw = Some d.

Definition is_thrown (c : Control) : Prop :=
  match c with Thrown _ => True | _ => False end.

Definition is_bind (a : action) : Prop :=
  match a with Bind _ => True | _ => False end.

End Main.

End Receiver.

(** * A concrete instance of the collaborators

    Used to run the program on concrete inputs. *)

Module Sample.
Import Reassembly Receiver.

(** ** Decimal conversion *)

Fixpoint digits_value (s : string) (acc : Z) : option Z :=
  match s with
  | EmptyString => Some acc
  | String c s' =>
      let n := Z.of_N (Ascii.N_of_ascii c) in
      if ((48 <=? n) && (n <=? 57))%Z
      then digits_value s' (10 * acc + (n - 48))%Z
      else None
  end.

Definition in_int_range (z : Z) : option Z :=
  if ((-2147483648 <=? z) && (z <=? 2147483647))%Z then Some z else None.

Definition decimal_stoi (s : string) : option Z :=
  match s with
  | EmptyString => None
  | String "-"%char EmptyString => None
  | String "-"%char s' => digits_value s' 0%Z ≫= λ z, in_int_range (- z)%Z
  | _ => digits_value s 0%Z ≫= in_int_range
  end.

Definition narrow_uint16 (z : Z) : option N :=
  if ((0 <=? z) && (z <? 65536))%Z then Some (Z.to_N z) else None.

#[global] Instance sample_conversion : Conversion :=
  {| strict_stoi := decimal_stoi; narrow_cast_uint16 := narrow_uint16 |}.

(** ** Wire format

    Modelled from the spec: a leading discriminant byte (1 fragment,
    2 session configuration, 3 acknowledgment) followed by fixed-width
    big-endian fields; the fragment payload is the rest of the datagram.
    Truncated input, an unknown discriminant, a fragment index that is not
    below the fragment count and a zero configuration field are rejected. *)

Definition be_value (bs : list byte) : N :=
  fold_left (λ acc b, acc * 256 + Byte.to_N b) bs 0.

Definition field (off len : nat) (bs : list byte) : N :=
  be_value (take len (drop off bs)).

Definition decode_fragment (raw : list byte) : option Datagram :=
  match raw with
  | x01 :: body =>
      if (8 <=? length body)%nat then
        let d := {| frame_id := field 0 4 body; frag_id := field 4 2 body;
                    fragment_count := field 6 2 body;
                    payload_bytes := drop 8 body |} in
        if frag_id d <? fragment_count d then Some d else None
      else None
  | _ => None
  end.

Definition decode_config (body : list byte) : option ConfigMsg :=
  if (length body =? 10)%nat then
    let c := {| width := field 0 2 body; height := field 2 2 body;
                frame_rate := field 4 2 body; target_bitrate := field 6 4 body |} in
    if (0 <? width c) && (0 <? height c) && (0 <? frame_rate c) && (0 <? target_bitrate c)
    then Some c else None
  else None.

Definition decode_msg (raw : list byte) : option Msg :=
  match raw with
  | x01 :: _ =>
      decode_fragment raw ≫= λ _, Some {| type := FRAGMENT; as_config := None |}
  | x02 :: body =>
      decode_config body ≫= λ c, Some {| type := CONFIG; as_config := Some c |}
  | x03 :: body =>
      if (length body =? 14)%nat
      then Some {| type := ACK; as_config := None |} else None
  | _ => None
  end.

Fixpoint be_bytes (len : nat) (v : N) : list byte :=
  match len with
  | O => []
  | S len' =>
      be_bytes len' (v / 256)
        ++ [default x00 (Byte.of_N (v mod 256))]
  end.

Definition encode_ack (a : AckMsg) : list byte :=
  x03 :: be_bytes 4 (ack_frame_id a) ++ be_bytes 2 (ack_frag_id a)
      ++ be_bytes 8 (ack_ts a).

#[global] Instance sample_codec : Codec :=
  {| parse_msg := decode_msg; parse_datagram := decode_fragment;
     ack_timestamp := λ _, 0; serialize_ack := encode_ack |}.

(** ** Decoder

    Modelled from the spec: the decoder as the reassembly engine followed
    by a queue of completed frames that [consume_next_frame] drains. *)

Record Decoder : Type := mkDecoder {
  dec_width : N;
  dec_height : N;
  dec_lazy_level : Z;
  dec_output_path : string;
  dec_verbose : bool;
  engine : option ReassemblyState;
  ready : list CompletionEvent;
  delivered : list CompletionEvent
}.

Definition sample_new (w h : N) (lazy : Z) (out : string) : Decoder :=
  {| dec_width := w; dec_height := h; dec_lazy_level := lazy;
     dec_output_path := out; dec_verbose := false;
     engine := None; ready := []; delivered := [] |}.

Definition sample_set_verbose (d : Decoder) (v : bool) : Decoder :=
  {| dec_width := dec_width d; dec_height := dec_height d;
     dec_lazy_level := dec_lazy_level d; dec_output_path := dec_output_path d;
     dec_verbose := v;
     engine := engine d; ready := ready d; delivered := delivered d |}.

Definition sample_add (d : Decoder) (f : Datagram) : Decoder :=
  let '(st, ev) := ingest_fragment (default (initial_state f) (engine d)) f in
  {| dec_width := dec_width d; dec_height := dec_height d;
     dec_lazy_level := dec_lazy_level d; dec_output_path := dec_output_path d;
     dec_verbose := dec_verbose d;
     engine := Some st; ready := ready d ++ option_list ev;
     delivered := delivered d |}.

Definition sample_next_complete (d : Decoder) : bool * Decoder :=
  (match ready d with [] => false | _ => true end, d).

Definition sample_consume (d : Decoder) : Decoder :=
  match ready d with
  | [] => d
  | ev :: evs =>
      {| dec_width := dec_width d; dec_height := dec_height d;
         dec_lazy_level := dec_lazy_level d; dec_output_path := dec_output_path d;
         dec_verbose := dec_verbose d;
         engine := engine d; ready := evs; delivered := delivered d ++ [ev] |}
  end.

#[global] Instance sample_decoder : DecoderOps Decoder :=
  {| Decoder_new := sample_new; set_verbose := sample_set_verbose;
     add_datagram := sample_add; next_frame_complete := sample_next_complete;
     consume_next_frame := sample_consume |}.

(** Everything the decoder has completed so far, delivered or not. *)
Definition history (d : Decoder) : list CompletionEvent := delivered d ++ ready d.

(** The engine state and the events after ingesting [ds] in a new session. *)
Definition replay (ds : list Datagram) : option ReassemblyState * list CompletionEvent :=
  match ds with
  | [] => (None, [])
  | f :: _ => (Some (ingest_all (initial_state f) ds).1, (ingest_all (initial_state f) ds).2)
  end.

(** The decoder of a machine agrees with the engine run on [ds]. *)
Definition follows (m : Machine) (ds : list Datagram) : Prop :=
  match control m with
  | Receiving d | Draining d => (engine d, history d) = replay ds
  | Thrown _ => True
  end.

Definition delivered_frames (m : Machine) : list CompletionEvent :=
  match control m with
  | Receiving d | Draining d => delivered d
  | Thrown _ => []
  end.

(** ** Concrete inputs *)

(** Fragment [i] of [cnt] of frame [fid], carrying the single byte [b]. *)
Definition frag (fid i cnt : N) (b : byte) : Datagram :=
  {| frame_id := fid; frag_id := i; fragment_count := cnt; payload_bytes := [b] |}.

Definition program : string := "video_receiver".

Definition sender : Address := {| ip := "10.0.0.2"; port := 40000 |}.

(** A malformed datagram of three bytes. *)
Definition malformed3 : list byte := [x01; x00; x00].

(** Fragment [frag] of [cnt] of frame [fid] with a one-byte payload. *)
Definition fragment_bytes (fid frag cnt : N) (b : byte) : list byte :=
  x01 :: be_bytes 4 fid ++ be_bytes 2 frag ++ be_bytes 2 cnt ++ [b].

(** 640x480 at 30 frames per second, 500000 bits per second. *)
Definition config_bytes : list byte :=
  x02 :: be_bytes 2 640 ++ be_bytes 2 480 ++ be_bytes 2 30 ++ be_bytes 4 500000.

Definition fresh_decoder : Decoder :=
  sample_set_verbose (sample_new 640 480 0 "") false.

Definition steady (inc : list Packet) : Machine :=
  {| control := Receiving fresh_decoder;
     incoming := inc; peer := sender; log_acks := false |}.

(** A malformed datagram with a well-formed fragment behind it. *)
Definition good_packet : Packet := (sender, Some (fragment_bytes 0 0 1 "A")).
Definition bad_then_good : list Packet := [(sender, Some malformed3); good_packet].

(** Frame 0 is tracked with fragment 0 of 2. *)
Definition tracking_frame0 : ReassemblyState :=
  (ingest_fragment (initial_state (frag 0 0 2 "A")) (frag 0 0 2 "A")).1.

(** Frame 0 was delivered. *)
Definition after_frame0 : ReassemblyState :=
  (ingest_fragment (initial_state (frag 0 0 1 "A")) (frag 0 0 1 "A")).1.

Definition arrival_102 : list Datagram :=
  [frag 0 1 3 "b"; frag 0 0 3 "a"; frag 0 2 3 "c"].



(** What reaches the socket before the config: a well-formed fragment and
    a malformed datagram. *)
Definition early_packets : list Packet := [good_packet; (sender, Some malformed3)].

Definition config_640x480 : ConfigMsg :=
  {| width := 640; height := 480; frame_rate := 30; target_bitrate := 500000 |}.

(** A decoder with one completed frame waiting. *)
Definition one_ready : Decoder := sample_add fresh_decoder (frag 0 0 1 "A").

Definition draining (dec : Decoder) (inc : list Packet) : Machine :=
  {| control := Draining dec; incoming := inc; peer := sender; log_acks := false |}.

End Sample.

(** * Properties of the reassembly engine *)

Section ReassemblyFacts.
Import Reassembly.
Implicit Types (st : ReassemblyState) (f g : Datagram) (pf : PartialFrame).

Lemma ingest_fragment_outcome st f :
  ingest_outcome st f (ingest_fragment st f).1 (ingest_fragment st f).2.
Proof.
  unfold ingest_fragment.
  destruct (N.ltb_spec (frame_id f) (expected_frame_id st)) as [Hlt|Hge]; simpl.
  { by constructor. }
  destruct (N.eqb_spec (pf_fragment_count (locate_or_create st f)) (fragment_count f))
    as [Heq|Hne]; simpl.
  - destruct (complete _) eqn:Hc; simpl; by constructor.
  - unfold locate_or_create in Hne.
    destruct (partial_frames st !! frame_id f) as [pf|] eqn:Hpf; simpl in Hne.
    + by eapply outcome_violation.
    + done.
Qed.

Lemma ingest_all_cons st f fs :
  ingest_all st (f :: fs) =
    ((ingest_all (ingest_fragment st f).1 fs).1,
     option_list (ingest_fragment st f).2 ++ (ingest_all (ingest_fragment st f).1 fs).2).
Proof.
  simpl. destruct (ingest_fragment st f) as [st1 ev]; simpl.
  by destruct (ingest_all st1 fs).
Qed.

Lemma ingest_all_app st fs gs :
  ingest_all st (fs ++ gs) =
    ((ingest_all (ingest_all st fs).1 gs).1,
     (ingest_all st fs).2 ++ (ingest_all (ingest_all st fs).1 gs).2).
Proof.
  revert st. induction fs as [|f fs IH]; intros st.
  - simpl. by destruct (ingest_all st gs).
  - rewrite <- app_comm_cons, !ingest_all_cons, IH; simpl.
    by rewrite app_assoc.
Qed.

Lemma expected_mono_step st f :
  expected_frame_id st ≤ expected_frame_id (ingest_fragment st f).1.
Proof.
  destruct (ingest_fragment_outcome st f); simpl; lia.
Qed.

Lemma expected_mono_all st fs :
  expected_frame_id st ≤ expected_frame_id (ingest_all st fs).1.
Proof.
  revert st. induction fs as [|f fs IH]; intros st; [simpl; lia|].
  rewrite ingest_all_cons; simpl.
  etransitivity; [apply (expected_mono_step st f) | apply IH].
Qed.

Lemma event_of_ingest st f ev :
  (ingest_fragment st f).2 = Some ev →
  ev_frame_id ev = frame_id f
  ∧ expected_frame_id st ≤ frame_id f
  ∧ expected_frame_id (ingest_fragment st f).1 = N.succ (frame_id f)
  ∧ partial_frames (ingest_fragment st f).1
    = filter (newer_than (frame_id f)) (partial_frames st).
Proof.
  destruct (ingest_fragment_outcome st f); intros Hev; simplify_eq; done.
Qed.

Lemma events_at_least_expected st fs :
  Forall (λ ev, expected_frame_id st ≤ ev_frame_id ev) (ingest_all st fs).2.
Proof.
  revert st. induction fs as [|f fs IH]; intros st; [by constructor|].
  rewrite ingest_all_cons; simpl. apply Forall_app; split.
  - destruct (ingest_fragment st f).2 as [ev|] eqn:Hev; simpl; [|constructor].
    apply event_of_ingest in Hev as (Hid & Hge & _).
    constructor; [by rewrite Hid|constructor].
  - eapply Forall_impl; [apply IH|]. simpl; intros ev Hle.
    pose proof (expected_mono_step st f). lia.
Qed.

Lemma events_increasing st fs :
  StronglySorted N.lt (ev_frame_id <$> (ingest_all st fs).2).
Proof.
  revert st. induction fs as [|f fs IH]; intros st; [constructor|].
  rewrite ingest_all_cons; simpl.
  destruct (ingest_fragment st f).2 as [ev|] eqn:Hev; simpl; [|apply IH].
  constructor; [apply IH|].
  apply event_of_ingest in Hev as (Hid & _ & Hexp & _).
  apply Forall_fmap. eapply Forall_impl; [apply events_at_least_expected|].
  simpl; intros ev' Hle. rewrite Hexp in Hle. rewrite Hid. lia.
Qed.

Lemma insert_fragment_count pf f :
  pf_fragment_count (insert_fragment pf f) = pf_fragment_count pf.
Proof. unfold insert_fragment. by destruct (fragments pf !! frag_id f). Qed.

Lemma insert_fragment_present pf f :
  is_Some (fragments (insert_fragment pf f) !! frag_id f).
Proof.
  unfold insert_fragment. destruct (fragments pf !! frag_id f) eqn:E; simpl.
  - by rewrite E.
  - rewrite lookup_insert_eq. eauto.
Qed.

Lemma insert_fragment_keeps pf f i :
  is_Some (fragments pf !! i) → is_Some (fragments (insert_fragment pf f) !! i).
Proof.
  intros Hi. unfold insert_fragment.
  destruct (fragments pf !! frag_id f) eqn:E; simpl; [done|].
  destruct (decide (frag_id f = i)) as [->|Hne].
  - rewrite lookup_insert_eq. eauto.
  - by rewrite lookup_insert_ne.
Qed.

Lemma insert_fragment_duplicate pf f :
  is_Some (fragments pf !! frag_id f) → insert_fragment pf f = pf.
Proof. intros [x Hx]. unfold insert_fragment. by rewrite Hx. Qed.

Lemma settled_ignored st f : settled f st → ingest_fragment st f = (st, None).
Proof.
  intros Hs. unfold ingest_fragment.
  destruct (N.ltb_spec (frame_id f) (expected_frame_id st)) as [Hlt|Hge]; [done|].
  destruct Hs as [Hlt|(pf & Hpf & Hcase)]; [lia|].
  unfold locate_or_create. rewrite Hpf; simpl.
  destruct (N.eqb_spec (pf_fragment_count pf) (fragment_count f)) as [Heq|Hne];
    simpl; [|done].
  destruct Hcase as [Hne|[Hin Hc]]; [done|].
  rewrite (insert_fragment_duplicate _ _ Hin), Hc.
  rewrite (insert_id _ _ _ Hpf). by destruct st.
Qed.

Lemma settled_after_ingest st f : settled f (ingest_fragment st f).1.
Proof.
  destruct (ingest_fragment_outcome st f) as [Hlt|pf Hge Hpf Hne|Hge Hcnt Hc|Hge Hcnt Hc].
  - by left.
  - right. exists pf. split; [done|]. by left.
  - left. simpl. lia.
  - right. eexists. split; [simpl; apply lookup_insert_eq|].
    right. split; [apply insert_fragment_present|done].
Qed.

Lemma settled_preserved st f g : settled f st → settled f (ingest_fragment st g).1.
Proof.
  intros Hs.
  destruct (ingest_fragment_outcome st g) as [Hlt|pf Hge Hpf Hne|Hge Hcnt Hc|Hge Hcnt Hc];
    try done.
  - destruct Hs as [Hlt|(pf & Hpf & Hcase)]; [left; simpl; lia|].
    destruct (decide (frame_id g < frame_id f)) as [Hnew|Hold].
    + right. exists pf. split; [|done]. simpl.
      apply map_lookup_filter_Some. split; [done|]. exact Hnew.
    + left. simpl. lia.
  - destruct Hs as [Hlt|(pf & Hpf & Hcase)]; [by left|].
    right. simpl. destruct (decide (frame_id g = frame_id f)) as [Heq|Hne].
    + rewrite Heq, lookup_insert_eq. eexists; split; [done|].
      unfold locate_or_create in *. rewrite Heq, Hpf in *; simpl in *.
      rewrite insert_fragment_count.
      destruct Hcase as [Hne|[Hin Hcpf]]; [by left|right].
      split; [by apply insert_fragment_keeps|done].
    + rewrite lookup_insert_ne by done. by exists pf.
Qed.

Lemma settled_preserved_all st f gs : settled f st → settled f (ingest_all st gs).1.
Proof.
  revert st. induction gs as [|g gs IH]; intros st Hs; [done|].
  rewrite ingest_all_cons; simpl. by apply IH, settled_preserved.
Qed.

Lemma delivery_order_helper (fs : list Datagram) :
  (∀ st, StronglySorted N.lt (ev_frame_id <$> (ingest_all st fs).2))
  ∧ StronglySorted N.lt (ev_frame_id <$> session_events fs).
Proof.
  split; [intros st; apply events_increasing|].
  destruct fs as [|f fs]; [constructor|].
  unfold session_events. apply events_increasing.
Qed.

End ReassemblyFacts.

(** ** Collecting the fragments of one frame *)

Section Collect.
Import Reassembly.
Implicit Types (st : ReassemblyState) (f g : Datagram) (pf : PartialFrame).

Lemma store_all_absent (l : list Datagram) (m : gmap N (list byte)) (i : N) :
  i ∉ frag_id <$> l → store_all l m !! i = m !! i.
Proof.
  revert m. induction l as [|g l IH]; intros m Hi; [done|].
  rewrite fmap_cons, not_elem_of_cons in Hi. destruct Hi as [Hne Hi].
  unfold store_all in *. simpl. rewrite IH by done.
  by rewrite lookup_insert_ne.
Qed.

Lemma store_all_present (l : list Datagram) (m : gmap N (list byte)) f :
  NoDup (frag_id <$> l) → f ∈ l →
  store_all l m !! frag_id f = Some (payload_bytes f).
Proof.
  revert m. induction l as [|g l IH]; intros m Hnd Hin.
  { by apply elem_of_nil in Hin. }
  rewrite fmap_cons in Hnd. apply NoDup_cons in Hnd as [Hg Hnd].
  apply elem_of_cons in Hin as [->|Hin].
  - change (store_all (g :: l) m) with
      (store_all l (<[frag_id g := payload_bytes g]> m)).
    rewrite store_all_absent by done. apply lookup_insert_eq.
  - change (store_all (g :: l) m) with
      (store_all l (<[frag_id g := payload_bytes g]> m)).
    by apply IH.
Qed.

(** Ingesting the missing fragments of a tracked or fresh frame, and
    nothing else, emits one event, with the last of them. *)
Lemma collect_frame (fid cnt : N) (l : list Datagram) :
  ∀ st pf,
    l ≠ [] →
    expected_frame_id st ≤ fid →
    default (new_partial cnt) (partial_frames st !! fid) = pf →
    pf_fragment_count pf = cnt →
    received pf + N.of_nat (length l) = cnt →
    Forall (λ f, frame_id f = fid ∧ fragment_count f = cnt
                 ∧ fragments pf !! frag_id f = None) l →
    NoDup (frag_id <$> l) →
    (ingest_all st l).2 =
      [ {| ev_frame_id := fid;
           assembled_bytes := assemble_map (store_all l (fragments pf)) (N.to_nat cnt) |} ].
Proof.
  induction l as [|f l IH]; intros st pf Hne Hexp Hpf Hcnt Hrecv Hall Hnd; [done|].
  apply Forall_cons in Hall as [(Hfid & Hfc & Hfresh) Hall].
  rewrite fmap_cons in Hnd. apply NoDup_cons in Hnd as [Hf Hnd].
  rewrite ingest_all_cons.
  assert (Hloc : locate_or_create st f = pf).
  { unfold locate_or_create. by rewrite Hfid, Hfc. }
  assert (Hins : insert_fragment pf f =
                 {| fragments := <[frag_id f := payload_bytes f]> (fragments pf);
                    pf_fragment_count := cnt;
                    received := N.succ (received pf) |}).
  { unfold insert_fragment. by rewrite Hfresh, Hcnt. }
  unfold ingest_fragment. rewrite Hloc, Hins, Hfid, Hfc.
  destruct (N.ltb_spec fid (expected_frame_id st)) as [?|_]; [lia|].
  rewrite Hcnt, N.eqb_refl. simpl negb. cbv iota.
  unfold complete; simpl received; simpl pf_fragment_count.
  destruct l as [|g l].
  - simpl in Hrecv. replace (N.succ (received pf) =? cnt) with true
      by (symmetry; apply N.eqb_eq; lia).
    simpl. done.
  - replace (N.succ (received pf) =? cnt) with false
      by (symmetry; apply N.eqb_neq; simpl length in Hrecv; lia).
    cbn [fst snd].
    change (store_all (f :: g :: l) (fragments pf))
      with (store_all (g :: l) (<[frag_id f := payload_bytes f]> (fragments pf))).
    unfold option_list. cbn [option_rect app].
    match goal with |- (ingest_all ?st1 _).2 = _ =>
      pose proof (IH st1
                    {| fragments := <[frag_id f := payload_bytes f]> (fragments pf);
                       pf_fragment_count := cnt;
                       received := N.succ (received pf) |}) as IH'
    end.
    cbn [fragments pf_fragment_count received partial_frames expected_frame_id] in IH'.
    apply IH'; try done.
    + simpl. by rewrite lookup_insert_eq.
    + simpl length in *. simpl received. lia.
    + apply Forall_forall. intros h Hh.
      rewrite Forall_forall in Hall. destruct (Hall h Hh) as (H1 & H2 & H3).
      repeat split; try done. simpl.
      rewrite lookup_insert_ne; [done|].
      intros Heq. apply Hf. rewrite Heq. by apply list_elem_of_fmap_2.
Qed.

Lemma fragments_of_elem fid (ps : list (list byte)) f :
  f ∈ fragments_of fid ps ↔
  ∃ i p, ps !! i = Some p
         ∧ f = {| frame_id := fid; frag_id := N.of_nat i;
                  fragment_count := N.of_nat (length ps); payload_bytes := p |}.
Proof.
  unfold fragments_of. rewrite elem_of_lookup_imap.
  split; intros (i & p & ? & ?); exists i, p; by split.
Qed.

Lemma fragments_of_indices fid (ps : list (list byte)) :
  frag_id <$> fragments_of fid ps = N.of_nat <$> seq 0 (length ps).
Proof.
  unfold fragments_of. apply list_eq. intros i.
  rewrite !list_lookup_fmap, list_lookup_imap.
  destruct (ps !! i) as [p|] eqn:Hp; simpl.
  - rewrite lookup_seq_lt by (by eapply lookup_lt_Some). done.
  - rewrite lookup_seq_ge by (by apply lookup_ge_None). done.
Qed.

Lemma fragments_of_NoDup fid (ps : list (list byte)) :
  NoDup (frag_id <$> fragments_of fid ps).
Proof.
  rewrite fragments_of_indices. apply NoDup_fmap_2; [apply _|apply NoDup_seq].
Qed.

(** Whatever the arrival order, the stored payloads read back by index
    are the payloads of the frame in index order. *)
Lemma assemble_permuted fid (ps : list (list byte)) (arrival : list Datagram) :
  arrival ≡ₚ fragments_of fid ps →
  assemble_map (store_all arrival ∅) (length ps) = concat ps.
Proof.
  intros Hperm. unfold assemble_map. f_equal.
  apply list_eq. intros i. rewrite list_lookup_fmap.
  destruct (ps !! i) as [p|] eqn:Hp.
  - rewrite lookup_seq_lt by (by eapply lookup_lt_Some). simpl. f_equal.
    unfold payload_at.
    set (f := {| frame_id := fid; frag_id := N.of_nat i;
                 fragment_count := N.of_nat (length ps); payload_bytes := p |}).
    assert (Hin : f ∈ arrival).
    { rewrite Hperm. apply fragments_of_elem. by exists i, p. }
    rewrite (store_all_present arrival ∅ f); [done| |done].
    rewrite Hperm. apply fragments_of_NoDup.
  - rewrite lookup_seq_ge by (by apply lookup_ge_None). done.
Qed.

End Collect.

(** ** One frame among other traffic *)

Section Interleaved.
Import Reassembly.
Implicit Types (st : ReassemblyState) (f g : Datagram) (pf : PartialFrame).
Variables (fid : N) (ps : list (list byte)).

















End Interleaved.

(** * The claims on the reassembly engine *)

Section ReassemblyClaims.
Import Reassembly Sample.

(** C3. Across any sequence of fragment ingests, from any state and in
    particular over a whole session, the frame ids of the completion
    events emitted are strictly increasing: no frame is delivered out of
    order or twice. *)
Theorem delivery_strictly_increasing (fs : list Datagram) :
  (∀ st, StronglySorted N.lt (ev_frame_id <$> (ingest_all st fs).2))
  ∧ StronglySorted N.lt (ev_frame_id <$> session_events fs).
Proof. apply delivery_order_helper. Qed.

(** C4. If frame [n] is tracked and still incomplete when a fragment
    completes frame [n + 1], that ingest emits the event of frame
    [n + 1], moves [expected_frame_id] to [n + 2], stops tracking frame
    [n], and no later sequence of ingests ever emits an event for frame
    [n]. *)
Theorem newer_completion_abandons
    (st st' : ReassemblyState) (f : Datagram) (ev : CompletionEvent)
    (n : N) (pf : PartialFrame) (later : list Datagram) :
  partial_frames st !! n = Some pf →
  frame_id f = n + 1 →
  ingest_fragment st f = (st', Some ev) →
  ev_frame_id ev = n + 1
  ∧ expected_frame_id st' = n + 2
  ∧ partial_frames st' !! n = None
  ∧ Forall (λ e, ev_frame_id e ≠ n) (ingest_all st' later).2.
Proof.
  intros Hpf Hfid Hing.
  assert (Hev : (ingest_fragment st f).2 = Some ev) by (by rewrite Hing).
  apply event_of_ingest in Hev as (Hid & Hge & Hexp & Hframes).
  rewrite Hing in Hexp, Hframes; simpl in Hexp, Hframes.
  repeat split.
  - by rewrite Hid.
  - rewrite Hexp, Hfid. lia.
  - rewrite Hframes. apply map_lookup_filter_None. right.
    intros pf' _. unfold newer_than; simpl. lia.
  - eapply Forall_impl; [apply events_at_least_expected|].
    simpl; intros e Hle. rewrite Hexp, Hfid in Hle. lia.
Qed.

(** C5. For every state, reachable or not, and every ingest,
    [expected_frame_id] does not decrease, over one ingest and over any
    sequence of them; and ingesting a fragment whose frame id is below
    [expected_frame_id] returns the state unchanged and no event. *)
Theorem expected_monotone_stale_rejected (st : ReassemblyState) (f : Datagram) :
  expected_frame_id st ≤ expected_frame_id (ingest_fragment st f).1
  ∧ (∀ fs, expected_frame_id st ≤ expected_frame_id (ingest_all st fs).1)
  ∧ (frame_id f < expected_frame_id st → ingest_fragment st f = (st, None)).
Proof.
  split; [apply expected_mono_step|].
  split; [intros fs; apply expected_mono_all|].
  intros Hlt. apply settled_ignored. by left.
Qed.

(** With nothing but the fragments of one fresh frame arriving, in any
    order, the only event is the event of that frame. *)
Lemma fresh_frame_any_order
    (st : ReassemblyState) (fid : N) (ps : list (list byte))
    (arrival : list Datagram) :
  ps ≠ [] →
  expected_frame_id st ≤ fid →
  partial_frames st !! fid = None →
  arrival ≡ₚ fragments_of fid ps →
  (ingest_all st arrival).2 =
    [ {| ev_frame_id := fid; assembled_bytes := concat ps |} ].
Proof.
  intros Hps Hexp Hfresh Hperm.
  assert (Hlen : length arrival = length ps).
  { rewrite Hperm. unfold fragments_of. apply length_imap. }
  rewrite (collect_frame fid (N.of_nat (length ps)) arrival st
             (new_partial (N.of_nat (length ps)))).
  - simpl. rewrite Nat2N.id. by rewrite (assemble_permuted fid).
  - intros ->. destruct ps; [done|]. simpl in Hlen. lia.
  - done.
  - by rewrite Hfresh.
  - done.
  - simpl. by rewrite Hlen.
  - apply Forall_forall. intros f Hf. rewrite Hperm in Hf.
    apply fragments_of_elem in Hf as (i & p & _ & ->). simpl.
    repeat split; apply lookup_empty.
  - rewrite Hperm. apply fragments_of_NoDup.
Qed.


(** C7. Ingesting a fragment a second time, directly after the first or
    after any further ingests, returns the state unchanged, and with it
    every partial frame and its received-count; the duplicate produces no
    event and no error. *)
Theorem duplicate_fragment_idempotent (st : ReassemblyState) (f : Datagram) :
  ingest_fragment (ingest_fragment st f).1 f = ((ingest_fragment st f).1, None)
  ∧ (∀ between,
       ingest_fragment (ingest_all st (f :: between)).1 f
       = ((ingest_all st (f :: between)).1, None)).
Proof.
  split.
  - apply settled_ignored, settled_after_ingest.
  - intros between. apply settled_ignored.
    rewrite ingest_all_cons; simpl.
    apply settled_preserved_all, settled_after_ingest.
Qed.

End ReassemblyClaims.

(** * Properties of the receiver program *)

Section ReceiverFacts.
Import Receiver.
Local Open Scope nat_scope.
Context `{Conversion} `{Codec} {D : Type} `{DecoderOps D}.
Implicit Types (m : Machine (D := D)) (ps : list Packet) (tr : list action).

Lemma recv_config_msg_cons (a : Address) (raw : list byte) ps :
  recv_config_msg ((a, Some raw) :: ps) =
    match config_of raw with
    | Some c => Ok (a, c, ps)
    | None => recv_config_msg ps
    end.
Proof.
  simpl. unfold config_of. destruct (parse_msg raw) as [msg|]; [|done].
  destruct (decide (type msg = CONFIG)); [|done].
  by destruct (as_config msg).
Qed.

Lemma recv_config_msg_skip pre ps :
  Forall discardable pre → recv_config_msg (pre ++ ps) = recv_config_msg ps.
Proof.
  induction 1 as [|[a r] pre (raw & Hr & Hc) _ IH]; [done|].
  simpl in Hr; subst r.
  rewrite <- app_comm_cons, recv_config_msg_cons, Hc. exact IH.
Qed.

Lemma recv_config_msg_all_skipped pre :
  Forall discardable pre → recv_config_msg pre = Block.
Proof.
  intros Hpre. rewrite <- (app_nil_r pre). by rewrite recv_config_msg_skip.
Qed.

Lemma parse_options_app rs rs' o :
  parse_options (rs ++ rs') o =
    match parse_options rs o with
    | Parsed o' => parse_options rs' o'
    | other => other
    end.
Proof.
  revert o. induction rs as [|[opt optarg] rs IH]; intros o; [done|].
  simpl. destruct (opt =? opt_L)%Z.
  { destruct (strict_stoi optarg); [apply IH|done]. }
  destruct (opt =? opt_o)%Z; [apply IH|].
  destruct (opt =? opt_v)%Z; [apply IH|done].
Qed.

Lemma parsed_before_end rs o o' :
  parse_options rs o = Parsed o' → before_end rs = rs.
Proof.
  revert o. induction rs as [|[c arg] rs IH]; intros o Hp; [done|].
  simpl in *. destruct (Z.eqb_spec c (-1)) as [->|Hne]; [done|].
  f_equal. destruct (c =? opt_L)%Z.
  { destruct (strict_stoi arg); [by eapply IH|done]. }
  destruct (c =? opt_o)%Z; [by eapply IH|].
  destruct (c =? opt_v)%Z; [by eapply IH|done].
Qed.

Lemma before_end_app rs rs' :
  before_end rs = rs → before_end (rs ++ rs') = rs ++ before_end rs'.
Proof.
  induction rs as [|[c arg] rs IH]; intros Hid; [done|].
  simpl in *. destruct (c =? -1)%Z; [done|].
  f_equal. apply IH. by simplify_eq.
Qed.

Lemma main_parsed prog rs o pos ps :
  parse_options rs default_options = Parsed o →
  main prog rs pos ps = start prog o pos ps.
Proof.
  intros Hrs. unfold main. by rewrite (parsed_before_end _ _ _ Hrs), Hrs.
Qed.

Lemma parse_options_keeps_lazy rs o o' :
  parse_options rs o = Parsed o' →
  Forall (λ r, r.1 ≠ opt_L) rs →
  lazy_level o' = lazy_level o.
Proof.
  revert o. induction rs as [|[c arg] rs IH]; intros o Hp Hall.
  { simpl in Hp. by simplify_eq. }
  apply Forall_cons in Hall as [Hc Hall]. simpl in Hc, Hp.
  destruct (Z.eqb_spec c opt_L) as [->|_]; [done|].
  destruct (c =? opt_o)%Z; [by rewrite (IH _ Hp Hall)|].
  destruct (c =? opt_v)%Z; [by rewrite (IH _ Hp Hall)|done].
Qed.

Lemma start_no_send prog o pos ps :
  Forall (λ a, ¬ is_send a) (start prog o pos ps).1.
Proof.
  unfold start. destruct pos as [|port_arg [|]]; simpl;
    try (repeat constructor; by intros []).
  destruct (strict_stoi port_arg) as [p|]; [|constructor].
  destruct (narrow_cast_uint16 p) as [port|]; [|constructor].
  destruct (recv_config_msg ps) as [[[a c] rest]| |]; simpl;
    repeat constructor; by intros [].
Qed.

Lemma run_thrown n m e : control m = Thrown e → run n m = ([], m).
Proof. intros Hc. destruct n; [done|]. simpl. unfold step. by rewrite Hc. Qed.

Lemma step_peer m tr m' : step m = Some (tr, m') → peer m' = peer m.
Proof.
  unfold step. intros Hs.
  destruct (control m) as [dec|dec|e]; [| |done].
  - destruct (incoming m) as [|[a [raw|]] rest]; [done| |by simplify_eq].
    destruct (parse_datagram raw); by simplify_eq.
  - destruct (next_frame_complete dec) as [[|] dec']; by simplify_eq.
Qed.

Lemma run_peer n m : peer (run n m).2 = peer m.
Proof.
  revert m. induction n as [|n IH]; intros m; [done|].
  simpl. destruct (step m) as [[tr m']|] eqn:Hs; [|done].
  specialize (IH m'). destruct (run n m') as [tr' m'']; simpl in *.
  rewrite IH. by eapply step_peer.
Qed.

Lemma wire_view_app tr tr' : wire_view (tr ++ tr') = wire_view tr ++ wire_view tr'.
Proof. apply List.filter_app. Qed.

(** What one step reads and what it puts on the wire. *)
Lemma step_wire m tr m' :
  step m = Some (tr, m') →
  ∃ ps, incoming m = ps ++ incoming m'
        ∧ wire_view tr = flat_map ack_then_add (parsed_prefix ps)
        ∧ (length (parsed_prefix ps) < length ps → ∃ e, control m' = Thrown e).
Proof.
  unfold step. intros Hs.
  destruct (control m) as [dec|dec|e]; [| |done].
  - destruct (incoming m) as [|[a [raw|]] rest] eqn:Hin; [done| |].
    + destruct (parse_datagram raw) as [d|] eqn:Hp; simplify_eq.
      * exists [(a, Some raw)]. simpl. rewrite Hp. simpl.
        split; [done|]. split; [|lia].
        unfold wire_view. by destruct (log_acks m).
      * exists [(a, Some raw)]. simpl. rewrite Hp. simpl. eauto.
    + simplify_eq. exists [(a, None)]. simpl. eauto.
  - exists []. destruct (next_frame_complete dec) as [[|] dec']; simplify_eq;
      simpl; (split; [done|]); (split; [done|lia]).
Qed.

Lemma parsed_prefix_app ps ps' :
  length (parsed_prefix ps) = length ps →
  parsed_prefix (ps ++ ps') = parsed_prefix ps ++ parsed_prefix ps'.
Proof.
  induction ps as [|[a [raw|]] ps IH]; simpl; [done| |lia].
  destruct (parse_datagram raw); simpl; [|lia].
  intros Hlen. f_equal. apply IH. lia.
Qed.

Lemma parsed_prefix_length ps : length (parsed_prefix ps) ≤ length ps.
Proof.
  induction ps as [|[a [raw|]] ps IH]; simpl; [lia| |lia].
  destruct (parse_datagram raw); simpl; lia.
Qed.

Lemma parsed_prefix_stops ps ps' :
  length (parsed_prefix ps) < length ps →
  parsed_prefix (ps ++ ps') = parsed_prefix ps.
Proof.
  induction ps as [|[a [raw|]] ps IH]; simpl; [lia| |done].
  destruct (parse_datagram raw); simpl; [|done].
  intros Hlen. f_equal. apply IH. lia.
Qed.

(** The packets a run reads and what it puts on the wire. *)
Lemma run_wire n m :
  ∃ ps, incoming m = ps ++ incoming (run n m).2
        ∧ wire_view (run n m).1 = flat_map ack_then_add (parsed_prefix ps).
Proof.
  revert m. induction n as [|n IH]; intros m.
  { exists []. by simpl. }
  simpl. destruct (step m) as [[tr m1]|] eqn:Hs; [|by exists []].
  apply step_wire in Hs as (ps1 & Hin1 & Hw1 & Hstop).
  destruct (decide (length (parsed_prefix ps1) < length ps1)) as [Hbad|Hgood].
  - destruct (Hstop Hbad) as [e He].
    rewrite (run_thrown n m1 e He). simpl. exists ps1.
    by rewrite app_nil_r.
  - destruct (IH m1) as (ps2 & Hin2 & Hw2).
    destruct (run n m1) as [tr2 m2]; simpl in *.
    exists (ps1 ++ ps2). split.
    + by rewrite Hin1, Hin2, app_assoc.
    + pose proof (parsed_prefix_length ps1).
      rewrite wire_view_app, Hw1, Hw2, parsed_prefix_app by lia.
      by rewrite flat_map_app.
Qed.

Lemma sends_ack_then_add (ds : list Datagram) :
  sends (flat_map ack_then_add ds) = (λ d, serialize_ack (AckMsg_of d)) <$> ds.
Proof. induction ds as [|d ds IH]; [done|]. simpl. by rewrite IH. Qed.

Lemma added_ack_then_add (ds : list Datagram) :
  added (flat_map ack_then_add ds) = ds.
Proof. induction ds as [|d ds IH]; [done|]. simpl. by rewrite IH. Qed.

Lemma sends_wire_view tr : sends (wire_view tr) = sends tr.
Proof.
  induction tr as [|a tr IH]; [done|]. destruct a; simpl; by rewrite ?IH.
Qed.

Lemma added_wire_view tr : added (wire_view tr) = added tr.
Proof.
  induction tr as [|a tr IH]; [done|]. destruct a; simpl; by rewrite ?IH.
Qed.

End ReceiverFacts.

(** * The claims on the receiver program *)

Section ReceiverClaims.
Import Receiver.
Local Open Scope nat_scope.
Context `{Conversion} `{Codec} {D : Type} `{DecoderOps D}.
Implicit Types (m : Machine (D := D)) (ps : list Packet) (tr : list action).

(** C1, as the program has it.  When the datagram at the head of the
    socket fails [Datagram::parse_from_string] in steady state, no
    acknowledgment is sent and the decoder is not called, but the loop
    does not go on: [main] throws [runtime_error("failed to parse a
    datagram")], and however long the program is observed nothing more
    happens and the packets behind the malformed one stay unread. *)
Theorem malformed_datagram_throws m (dec : D) (a : Address) (raw : list byte) ps n :
  control m = Receiving dec →
  incoming m = (a, Some raw) :: ps →
  parse_datagram raw = None →
  run (S n) m =
    ([], goto m (Thrown (runtime_error "failed to parse a datagram")) ps).
Proof.
  intros Hc Hin Hp. simpl. unfold step. rewrite Hc, Hin, Hp.
  by rewrite (run_thrown n _ (runtime_error "failed to parse a datagram")).
Qed.

(** C8. The handshake reads packets until the first whose payload parses
    as a config: while only other packets have arrived it keeps waiting;
    when the config arrives it returns its sender, the config and the
    packets not yet read.  [main] then connects the socket to that sender,
    and the peer stays the same for the rest of the session. *)
Theorem handshake_locks_first_config
    (pre : list Packet) (a : Address) (raw : list byte) (c : ConfigMsg)
    (rest : list Packet) (prog : string) (o : Options)
    (port_arg : string) (p : Z) (port : N) :
  Forall discardable pre →
  config_of raw = Some c →
  strict_stoi port_arg = Some p →
  narrow_cast_uint16 p = Some port →
  recv_config_msg pre = Block
  ∧ recv_config_msg (pre ++ (a, Some raw) :: rest) = Ok (a, c, rest)
  ∧ ∃ tr m,
      start prog o [port_arg] (pre ++ (a, Some raw) :: rest) = (tr, Started m)
      ∧ Connect a ∈ tr
      ∧ peer m = a
      ∧ incoming m = rest
      ∧ ∀ n, peer (run n m).2 = a.
Proof.
  intros Hpre Hc Hp Hport.
  assert (Hrecv : recv_config_msg (pre ++ (a, Some raw) :: rest) = Ok (a, c, rest)).
  { by rewrite recv_config_msg_skip, recv_config_msg_cons, Hc. }
  split; [by apply recv_config_msg_all_skipped|].
  split; [done|].
  unfold start. rewrite Hp, Hport, Hrecv.
  eexists _, _. split; [done|]. simpl.
  split; [set_solver|].
  split; [done|]. split; [done|].
  intros n. by rewrite run_peer.
Qed.

(** C9. Packets that arrive during the handshake and are not a config,
    fragments that [Datagram::parse_from_string] would accept included,
    leave no trace: [main] performs the same actions and reaches the same
    state as if they had never arrived.  Up to and including the
    handshake [main] sends nothing. *)
Theorem handshake_discards_silently
    (prog : string) (rs : list (Z * string)) (pos : list string)
    (pre rest : list Packet) :
  Forall discardable pre →
  main prog rs pos (pre ++ rest) = main prog rs pos rest
  ∧ Forall (λ a, ¬ is_send a) (main prog rs pos (pre ++ rest)).1.
Proof.
  intros Hpre. split.
  - unfold main. destruct (parse_options _ default_options); try done.
    unfold start. destruct pos as [|port_arg [|]]; try done.
    destruct (strict_stoi port_arg) as [p|]; [|done].
    destruct (narrow_cast_uint16 p) as [port|]; [|done].
    by rewrite recv_config_msg_skip.
  - unfold main. destruct (parse_options _ default_options).
    + apply start_no_send.
    + repeat constructor. by intros [].
    + constructor.
Qed.

(** C10. Whatever integer [strict_stoi] reads from the argument of
    [--lazy], the option loop stores it, nothing on the way to the main
    loop tests it, and the decoder is constructed with it. *)
Theorem lazy_level_unchecked
    (prog : string) (rs : list (Z * string)) (o : Options) (s : string) (n : Z)
    (port_arg : string) (p : Z) (port : N)
    (a : Address) (raw : list byte) (c : ConfigMsg) (rest : list Packet) :
  parse_options rs default_options = Parsed o →
  strict_stoi s = Some n →
  strict_stoi port_arg = Some p →
  narrow_cast_uint16 p = Some port →
  config_of raw = Some c →
  parse_options (rs ++ [(opt_L, s)]) default_options
    = Parsed {| lazy_level := n; output_path := output_path o; verbose := verbose o |}
  ∧ (main prog (rs ++ [(opt_L, s)]) [port_arg] ((a, Some raw) :: rest)).2
    = Started {| control :=
                   Receiving (set_verbose
                                (Decoder_new (width c) (height c) n (output_path o))
                                (verbose o));
                 incoming := rest;
                 peer := a;
                 log_acks := verbose o |}.
Proof.
  intros Hrs Hs Hp Hport Hc.
  assert (Hopts : parse_options (rs ++ [(opt_L, s)]) default_options
                  = Parsed {| lazy_level := n; output_path := output_path o;
                              verbose := verbose o |}).
  { rewrite parse_options_app, Hrs. simpl. by rewrite Hs. }
  split; [done|].
  rewrite (main_parsed _ _ _ _ _ Hopts). unfold start.
  rewrite Hp, Hport, recv_config_msg_cons, Hc. done.
Qed.

End ReceiverClaims.

(** * Further properties of argument handling and of the handshake *)

Section StartupFacts.
Import Receiver.
Local Open Scope nat_scope.
Context `{Conversion} `{Codec} {D : Type} `{DecoderOps D}.
Implicit Types (m : Machine (D := D)) (ps : list Packet) (tr : list action).

(** X1. A result of [getopt_long] that is neither the [-1] that ends the
    loop nor one of ['L'], ['o'], ['v'], reached after options that were
    accepted, makes [main] print the usage text and return [EXIT_FAILURE];
    the options and arguments behind it are never looked at and no call is
    made on the socket. *)
Theorem unknown_option_prints_usage
    (prog : string) (rs1 rs2 : list (Z * string)) (c : Z) (arg : string)
    (o : Options) (pos : list string) (inc : list Packet) :
  parse_options rs1 default_options = Parsed o →
  c ≠ (-1)%Z → c ≠ opt_L → c ≠ opt_o → c ≠ opt_v →
  (main (D := D) prog (rs1 ++ (c, arg) :: rs2) pos inc).2 = Exit EXIT_FAILURE
  ∧ PrintUsage (usage_text prog)
    ∈ (main (D := D) prog (rs1 ++ (c, arg) :: rs2) pos inc).1
  ∧ Forall (λ a, ¬ is_socket_action a)
      (main (D := D) prog (rs1 ++ (c, arg) :: rs2) pos inc).1.
Proof.
  intros Hrs Hend HL Ho Hv. unfold main.
  rewrite (before_end_app _ _ (parsed_before_end _ _ _ Hrs)).
  apply Z.eqb_neq in Hend, HL, Ho, Hv.
  simpl before_end. rewrite Hend, parse_options_app, Hrs. simpl.
  rewrite HL, Ho, Hv. simpl. repeat split.
  - apply list_elem_of_singleton. done.
  - repeat constructor. by intros [].
Qed.

(** The option loop stops at the [-1]: what would come behind it makes no
    difference to [main]. *)
Lemma main_ignores_behind_end
    (prog : string) (rs rs' : list (Z * string)) (arg : string)
    (pos : list string) (inc : list Packet) :
  before_end rs = rs →
  main (D := D) prog (rs ++ ((-1)%Z, arg) :: rs') pos inc
  = main (D := D) prog rs pos inc.
Proof.
  intros Hid. unfold main. rewrite (before_end_app _ _ Hid). simpl.
  by rewrite app_nil_r, Hid.
Qed.

(** X2. When the options are accepted and the number of positional
    arguments is not exactly one, [main] prints the usage text and returns
    [EXIT_FAILURE] without touching the socket. *)
Theorem wrong_positional_count_prints_usage
    (prog : string) (rs : list (Z * string)) (o : Options)
    (pos : list string) (inc : list Packet) :
  parse_options rs default_options = Parsed o →
  length pos ≠ 1 →
  main (D := D) prog rs pos inc = (print_usage prog, Exit EXIT_FAILURE).
Proof.
  intros Hrs Hlen. rewrite (main_parsed _ _ _ _ _ Hrs). unfold start.
  by destruct pos as [|port_arg [|]].
Qed.

(** X3. When [--lazy] occurs several times among accepted options, the
    last occurrence decides: the level left by the loop is the integer
    [strict_stoi] read from the argument of the last [--lazy]. *)
Theorem last_lazy_option_decides
    (rs rs' : list (Z * string)) (s : string) (n : Z) (o o' : Options) :
  parse_options (rs ++ (opt_L, s) :: rs') o = Parsed o' →
  strict_stoi s = Some n →
  Forall (λ r, r.1 ≠ opt_L) rs' →
  lazy_level o' = n.
Proof.
  intros Hp Hs Hrest. rewrite parse_options_app in Hp.
  destruct (parse_options rs o) as [o1| |e]; [|done..].
  simpl in Hp. rewrite Hs in Hp.
  by rewrite (parse_options_keeps_lazy _ _ _ Hp Hrest).
Qed.

(** X4. What an accepted run of options leaves alone: [verbose], once set,
    is never cleared, and each of the three settings keeps its value when
    its own option does not occur. *)
Theorem option_loop_preserves (rs : list (Z * string)) (o o' : Options) :
  parse_options rs o = Parsed o' →
  (verbose o = true → verbose o' = true)
  ∧ (Forall (λ r, r.1 ≠ opt_L) rs → lazy_level o' = lazy_level o)
  ∧ (Forall (λ r, r.1 ≠ opt_o) rs → output_path o' = output_path o)
  ∧ (Forall (λ r, r.1 ≠ opt_v) rs → verbose o' = verbose o).
Proof.
  revert o. induction rs as [|[c arg] rs IH]; intros o Hp.
  { simpl in Hp. by simplify_eq. }
  simpl in Hp.
  destruct (Z.eqb_spec c opt_L) as [->|HL].
  { destruct (strict_stoi arg) as [n|]; [|done].
    destruct (IH _ Hp) as (Hv & Hl & Ho & Hvv). simpl in *.
    repeat split; [done| |..].
    - intros Hall. apply Forall_cons in Hall as [Hc _]. done.
    - intros Hall. apply Forall_cons in Hall as [_ Hall]. by apply Ho.
    - intros Hall. apply Forall_cons in Hall as [_ Hall]. by apply Hvv. }
  destruct (Z.eqb_spec c opt_o) as [->|Ho'].
  { destruct (IH _ Hp) as (Hv & Hl & Ho & Hvv). simpl in *.
    repeat split; [done| |..].
    - intros Hall. apply Forall_cons in Hall as [_ Hall]. by apply Hl.
    - intros Hall. apply Forall_cons in Hall as [Hc _]. done.
    - intros Hall. apply Forall_cons in Hall as [_ Hall]. by apply Hvv. }
  destruct (Z.eqb_spec c opt_v) as [->|Hv']; [|done].
  destruct (IH _ Hp) as (Hv & Hl & Ho & Hvv). simpl in *.
  repeat split.
  - intros _. by apply Hv.
  - intros Hall. apply Forall_cons in Hall as [_ Hall]. by apply Hl.
  - intros Hall. apply Forall_cons in Hall as [_ Hall]. by apply Ho.
  - intros Hall. apply Forall_cons in Hall as [Hc _]. done.
Qed.

(** X5. When [strict_stoi] rejects the argument of [--lazy], the exception
    leaves [main] at once: nothing is printed, the remaining options and
    the port are not read and the socket is not touched. *)
Theorem bad_lazy_argument_throws
    (prog : string) (rs1 rs2 : list (Z * string)) (s : string)
    (o : Options) (pos : list string) (inc : list Packet) :
  parse_options rs1 default_options = Parsed o →
  strict_stoi s = None →
  main (D := D) prog (rs1 ++ (opt_L, s) :: rs2) pos inc
  = ([], Uncaught conversion_error).
Proof.
  intros Hrs Hs. unfold main.
  rewrite (before_end_app _ _ (parsed_before_end _ _ _ Hrs)).
  rewrite parse_options_app, Hrs. simpl. by rewrite Hs.
Qed.

(** X6. When the port argument is not read by [strict_stoi], or the number
    read does not fit [uint16_t], the exception leaves [main] before the
    socket is bound: no action at all is performed. *)
Theorem bad_port_throws_before_bind
    (prog : string) (rs : list (Z * string)) (o : Options)
    (port_arg : string) (inc : list Packet) :
  parse_options rs default_options = Parsed o →
  (strict_stoi port_arg = None
   ∨ ∃ p, strict_stoi port_arg = Some p ∧ narrow_cast_uint16 p = None) →
  main (D := D) prog rs [port_arg] inc = ([], Uncaught conversion_error).
Proof.
  intros Hrs Hbad. rewrite (main_parsed _ _ _ _ _ Hrs). unfold start.
  destruct Hbad as [Hs|(p & Hs & Hn)]; rewrite Hs; [done|]. by rewrite Hn.
Qed.

(** X7. [recv_config_msg] returns exactly when a config arrives behind
    packets that all carry a payload which is not a config: the peer it
    returns is the sender of that packet, the config is the one parsed from
    it, and the packets behind it are left unread. *)
Theorem handshake_returns_iff
    (inc : list Packet) (a : Address) (c : ConfigMsg) (rest : list Packet) :
  recv_config_msg inc = Ok (a, c, rest)
  ↔ ∃ pre raw, inc = pre ++ (a, Some raw) :: rest
               ∧ Forall discardable pre
               ∧ config_of raw = Some c.
Proof.
  split.
  - induction inc as [|[b [raw|]] inc IH]; [done| |done].
    rewrite recv_config_msg_cons.
    destruct (config_of raw) as [c'|] eqn:Hc.
    + intros Heq. simplify_eq. exists [], raw. by repeat split.
    + intros Heq. destruct (IH Heq) as (pre & raw' & -> & Hpre & Hc').
      exists ((b, Some raw) :: pre), raw'. repeat split; [|done].
      constructor; [|done]. by exists raw.
  - intros (pre & raw & -> & Hpre & Hc).
    by rewrite recv_config_msg_skip, recv_config_msg_cons, Hc.
Qed.

(** X8. [recv_config_msg] is still waiting after a sequence of packets
    exactly when every one of them carried a payload that is not a
    config. *)
Theorem handshake_waits_iff (inc : list Packet) :
  recv_config_msg inc = Block ↔ Forall discardable inc.
Proof.
  split; [|apply recv_config_msg_all_skipped].
  induction inc as [|[b [raw|]] inc IH]; [by constructor| |done].
  rewrite recv_config_msg_cons.
  destruct (config_of raw) as [c'|] eqn:Hc; [done|].
  intros Heq. constructor; [by exists raw|by apply IH].
Qed.

(** X9. The only exception [recv_config_msg] raises is
    [bad_optional_access], and it raises it exactly when a receive without
    a payload comes before any config. *)
Theorem handshake_throws_iff (inc : list Packet) (e : exn) :
  recv_config_msg inc = Throw e
  ↔ e = bad_optional_access
    ∧ ∃ pre b rest, inc = pre ++ (b, None) :: rest ∧ Forall discardable pre.
Proof.
  split.
  - induction inc as [|[b [raw|]] inc IH]; [done| |].
    + rewrite recv_config_msg_cons.
      destruct (config_of raw) as [c'|] eqn:Hc; [done|].
      intros Heq. destruct (IH Heq) as (-> & pre & b' & rest & -> & Hpre).
      split; [done|]. exists ((b, Some raw) :: pre), b', rest.
      split; [done|]. constructor; [by exists raw|done].
    + simpl. intros Heq. simplify_eq. split; [done|].
      exists [], b, inc. by split.
  - intros (-> & pre & b & rest & -> & Hpre).
    by rewrite recv_config_msg_skip.
Qed.

(** X10. [main] returns an exit code only through a usage error: the code
    is [EXIT_FAILURE], [main] has printed the usage text, and no call was
    made on the socket.  In particular [main] never returns
    [EXIT_SUCCESS]. *)
Theorem main_exits_only_with_usage
    (prog : string) (rs : list (Z * string)) (pos : list string)
    (inc : list Packet) (code : Z) :
  (main (D := D) prog rs pos inc).2 = Exit code →
  code = EXIT_FAILURE
  ∧ PrintUsage (usage_text prog) ∈ (main (D := D) prog rs pos inc).1
  ∧ Forall (λ a, ¬ is_socket_action a) (main (D := D) prog rs pos inc).1.
Proof.
  unfold main. destruct (parse_options _ default_options) as [o| |e]; simpl.
  - unfold start. destruct pos as [|port_arg [|]]; simpl;
      try (intros Heq; simplify_eq; repeat split;
           [by apply list_elem_of_singleton|repeat constructor; by intros []]).
    destruct (strict_stoi port_arg) as [p|]; [|done].
    destruct (narrow_cast_uint16 p) as [port|]; [|done].
    by destruct (recv_config_msg inc) as [[[a c] rest]| |].
  - intros Heq; simplify_eq. repeat split;
      [by apply list_elem_of_singleton|repeat constructor; by intros []].
  - done.
Qed.

End StartupFacts.

(** * Further properties of the main loop *)

Section LoopFacts.
Import Receiver.
Local Open Scope nat_scope.
Context `{Codec} {D : Type} `{DecoderOps D}.
Implicit Types (m : Machine (D := D)) (ps : list Packet) (tr : list action).

Lemma run_stuck n m : step m = None → run n m = ([], m).
Proof. intros Hs. destruct n; [done|]. simpl. by rewrite Hs. Qed.

Lemma run_plus n1 n2 m :
  run (n1 + n2) m =
    ((run n1 m).1 ++ (run n2 (run n1 m).2).1, (run n2 (run n1 m).2).2).
Proof.
  revert m. induction n1 as [|n1 IH]; intros m.
  { simpl. by destruct (run n2 m). }
  simpl. destruct (step m) as [[tr m1]|] eqn:Hs.
  - rewrite IH. destruct (run n1 m1) as [tr1 m2]; simpl.
    by rewrite app_assoc.
  - simpl. by rewrite (run_stuck n2 m Hs).
Qed.

Lemma acked_logs_app tr tr' : acked_logs (tr ++ tr') = acked_logs tr ++ acked_logs tr'.
Proof. apply omap_app. Qed.

Lemma added_trace_app tr tr' : added (tr ++ tr') = added tr ++ added tr'.
Proof. apply omap_app. Qed.

Lemma step_logs m tr m' :
  step m = Some (tr, m') →
  log_acks m' = log_acks m
  ∧ acked_logs tr
    = if log_acks m then (λ d, (frame_id d, frag_id d)) <$> added tr else [].
Proof.
  unfold step. intros Hs.
  destruct (control m) as [dec|dec|e]; [| |done].
  - destruct (incoming m) as [|[a [raw|]] rest].
    + done.
    + destruct (parse_datagram raw) as [d|]; simplify_eq; simpl;
        by destruct (log_acks m).
    + simplify_eq. simpl. by destruct (log_acks m).
  - destruct (next_frame_complete dec) as [[|] dec']; simplify_eq; simpl;
      by destruct (log_acks m).
Qed.

Lemma step_keeps_parsing m tr m' :
  ¬ is_thrown (control m) →
  Forall parses (incoming m) →
  step m = Some (tr, m') →
  ¬ is_thrown (control m') ∧ Forall parses (incoming m').
Proof.
  unfold step. intros Hnt Hall Hs.
  destruct (control m) as [dec|dec|e]; [| |done].
  - destruct (incoming m) as [|[a r] rest]; [done|].
    apply Forall_cons in Hall as [(raw & d & Hr & Hp) Hall].
    simpl in Hr; subst r. rewrite Hp in Hs. simplify_eq. simpl. by split.
  - destruct (next_frame_complete dec) as [[|] dec']; simplify_eq; simpl;
      by split.
Qed.

Lemma run_goto_thrown n m e ps :
  run n (goto m (Thrown e) ps) = ([], goto m (Thrown e) ps).
Proof. by apply (run_thrown n _ e). Qed.

Lemma goto_goto m c1 c2 ps1 ps2 : goto (goto m c1 ps1) c2 ps2 = goto m c2 ps2.
Proof. done. Qed.

Lemma drain_run k :
  ∀ (dec dec' : D) m c,
    drain k dec = Some (c, dec') →
    control m = Draining dec →
    run (S c) m = (repeat ConsumeFrame c, goto m (Receiving dec') (incoming m)).
Proof.
  induction k as [|k IH]; intros dec dec' m c Hd Hc; [done|].
  simpl in Hd. cbn [run]. unfold step. rewrite Hc.
  destruct (next_frame_complete dec) as [[|] dec1].
  - destruct (drain k (consume_next_frame dec1)) as [[c' dec'']|] eqn:Hd';
      simplify_eq.
    rewrite (IH _ _ (goto m (Draining (consume_next_frame dec1)) (incoming m))
               c' Hd' eq_refl).
    done.
  - simplify_eq. done.
Qed.

(** X11. The verbose branch writes one line per acknowledged datagram,
    carrying its frame id and fragment index, when [-v] was given, and
    writes nothing otherwise; the setting never changes during the
    session. *)
Theorem ack_logging_follows_verbose n m :
  log_acks (run n m).2 = log_acks m
  ∧ acked_logs (run n m).1
    = if log_acks m
      then (λ d, (frame_id d, frag_id d)) <$> added (run n m).1
      else [].
Proof.
  revert m. induction n as [|n IH]; intros m.
  { simpl. by destruct (log_acks m). }
  simpl. destruct (step m) as [[tr m1]|] eqn:Hs.
  - apply step_logs in Hs as [Hl Htr]. destruct (IH m1) as [Hl1 Htr1].
    destruct (run n m1) as [tr2 m2]; simpl in *.
    rewrite Hl1, Hl. split; [done|].
    rewrite acked_logs_app, added_trace_app, Htr, Htr1, Hl.
    destruct (log_acks m); [by rewrite fmap_app|done].
  - simpl. by destruct (log_acks m).
Qed.

(** X12. If every packet waiting on the socket has a payload that parses as
    a datagram, the main loop never throws, however long it runs and
    whatever the decoder does. *)
Theorem well_formed_traffic_never_throws n m :
  ¬ is_thrown (control m) →
  Forall parses (incoming m) →
  ¬ is_thrown (control (run n m).2).
Proof.
  revert m. induction n as [|n IH]; intros m Hnt Hall; [done|].
  simpl. destruct (step m) as [[tr m1]|] eqn:Hs; [|done].
  destruct (step_keeps_parsing m tr m1 Hnt Hall Hs) as [Hnt1 Hall1].
  specialize (IH m1 Hnt1 Hall1). by destruct (run n m1).
Qed.

(** X13. When the main loop has thrown, it is at the first packet that had
    no payload or did not parse: every packet before it parsed, the packets
    behind it are unread, and the exception is [bad_optional_access] in the
    first case and [runtime_error("failed to parse a datagram")] in the
    second. *)
Theorem loop_throws_at_first_bad_packet n m (e : exn) :
  ¬ is_thrown (control m) →
  control (run n m).2 = Thrown e →
  ∃ ps b r rest,
    incoming m = ps ++ (b, r) :: rest
    ∧ incoming (run n m).2 = rest
    ∧ Forall parses ps
    ∧ ((r = None ∧ e = bad_optional_access)
       ∨ (∃ raw, r = Some raw ∧ parse_datagram raw = None
                 ∧ e = runtime_error "failed to parse a datagram")).
Proof.
  revert m. induction n as [|n IH]; intros m Hnt He.
  { simpl in He. rewrite He in Hnt. by destruct Hnt. }
  simpl in He. destruct (step m) as [[tr m1]|] eqn:Hs;
    [|simpl in He; rewrite He in Hnt; by destruct Hnt].
  assert (Hrun : control (run n m1).2 = Thrown e) by (by destruct (run n m1)).
  assert (Hinc : incoming (run (S n) m).2 = incoming (run n m1).2).
  { simpl. rewrite Hs. by destruct (run n m1). }
  rewrite Hinc. clear He Hinc.
  unfold step in Hs.
  destruct (control m) as [dec|dec|e'] eqn:Hc; [| |done].
  - destruct (incoming m) as [|[b [raw|]] rest] eqn:Hin; [done| |].
    + destruct (parse_datagram raw) as [d|] eqn:Hp; simplify_eq.
      * destruct (IH (goto m (Draining (add_datagram dec d)) rest) (λ x, x) Hrun)
          as (ps & b' & r & rest' & Hin' & Hout & Hall & Hcase).
        simpl in Hin'. subst rest.
        exists ((b, Some raw) :: ps), b', r, rest'.
        repeat split; [done| |done].
        constructor; [by exists raw, d|done].
      * rewrite run_goto_thrown in Hrun |- *. simpl in *.
        simplify_eq. exists [], b, (Some raw), rest.
        repeat split; [constructor|]. right. by exists raw.
    + simplify_eq. rewrite run_goto_thrown in Hrun |- *. simpl in *.
      simplify_eq. exists [], b, None, rest.
      repeat split; [constructor|]. by left.
  - destruct (next_frame_complete dec) as [[|] dec']; simplify_eq;
      match type of Hrun with
      | control (run n ?m1).2 = _ => apply (IH m1 (λ x, x) Hrun)
      end.
Qed.

(** X14. The inner [while], when its test says no after [c] frames, has
    done nothing but consume those [c] frames: it read no packet, sent
    nothing, and hands the decoder back to the top of the main loop. *)
Theorem drain_only_consumes (k c : nat) (dec dec' : D) m :
  drain k dec = Some (c, dec') →
  control m = Draining dec →
  run (S c) m = (repeat ConsumeFrame c, goto m (Receiving dec') (incoming m)).
Proof. apply drain_run. Qed.

(** X15. If the decoder's ready test always says no after finitely many
    frames, the main loop gets through well-formed traffic: it reaches the
    top of the loop with the socket empty, having handed every datagram to
    the decoder in arrival order. *)
Theorem loop_serves_all_traffic m (dec : D) :
  (∀ d : D, ∃ k, is_Some (drain k d)) →
  control m = Receiving dec →
  Forall parses (incoming m) →
  ∃ n dec',
    control (run n m).2 = Receiving dec'
    ∧ incoming (run n m).2 = []
    ∧ added (run n m).1 = parsed_prefix (incoming m)
    ∧ length (added (run n m).1) = length (incoming m).
Proof.
  intros Hdrain. remember (incoming m) as ps eqn:Hps.
  revert m dec Hps. induction ps as [|[b r] ps IH]; intros m dec Hps Hc Hall.
  { exists 0, dec. simpl. by rewrite <- Hps. }
  apply Forall_cons in Hall as [(raw & d & Hr & Hp) Hall]. simpl in Hr; subst r.
  assert (Hstep : step m =
                  Some ([Send (serialize_ack (AckMsg_of d))]
                          ++ (if log_acks m
                              then [LogAcked (frame_id d) (frag_id d)] else [])
                          ++ [AddDatagram d],
                        goto m (Draining (add_datagram dec d)) ps)).
  { unfold step. by rewrite Hc, <- Hps, Hp. }
  destruct (Hdrain (add_datagram dec d)) as [k [[c dec1] Hk]].
  set (m1 := goto m (Draining (add_datagram dec d)) ps).
  pose proof (drain_run k _ _ m1 c Hk eq_refl) as Hdr.
  set (m2 := goto m1 (Receiving dec1) (incoming m1)) in Hdr.
  destruct (IH m2 dec1 eq_refl eq_refl Hall) as (n2 & dec' & Hc2 & Hin2 & Hadd2 & Hlen2).
  exists (1 + (S c + n2)), dec'.
  rewrite (run_plus 1 (S c + n2) m).
  assert (Hone : run 1 m = ([Send (serialize_ack (AckMsg_of d))]
                             ++ (if log_acks m
                                 then [LogAcked (frame_id d) (frag_id d)] else [])
                             ++ [AddDatagram d], m1)).
  { cbn [run]. rewrite Hstep. by rewrite app_nil_r. }
  rewrite Hone. cbn [fst snd].
  rewrite (run_plus (S c) n2 m1), Hdr. cbn [fst snd].
  assert (Hrep : added (repeat ConsumeFrame c) = []).
  { clear. induction c as [|c IHc]; [done|]. simpl. exact IHc. }
  repeat split; [done|done| |].
  - rewrite !added_trace_app, Hrep, Hadd2. simpl. rewrite Hp.
    by destruct (log_acks m).
  - rewrite !added_trace_app, Hrep. simpl.
    rewrite !length_app, Hlen2. by destruct (log_acks m).
Qed.

(** X16. From the top of the main loop nothing is observable until a
    datagram has parsed: a run in which no datagram was handed to the
    decoder performed no action at all, so no frame is ever consumed before
    the first [add_datagram]. *)
Theorem nothing_before_first_datagram n m (dec : D) :
  control m = Receiving dec →
  added (run n m).1 = [] →
  (run n m).1 = [].
Proof.
  intros Hc Hadd. destruct n as [|n]; [done|].
  simpl in *. unfold step in *. rewrite Hc in *.
  destruct (incoming m) as [|[b [raw|]] rest]; [done| |].
  - destruct (parse_datagram raw) as [d|].
    + destruct (run n _) as [tr2 m2]; simpl in *.
      rewrite added_trace_app in Hadd. by destruct (log_acks m).
    + by rewrite run_goto_thrown.
  - by rewrite run_goto_thrown.
Qed.

Lemma consumed_split m m' ps :
  incoming m = ps ++ incoming m' → consumed m m' = ps.
Proof.
  intros Hin. unfold consumed. rewrite Hin at 1 2. rewrite length_app.
  replace (length ps + length (incoming m') - length (incoming m'))
    with (length ps) by lia.
  by rewrite take_app_length.
Qed.

Lemma wire_view_consumes c : wire_view (repeat ConsumeFrame c) = [].
Proof. induction c as [|c IH]; [done|]. exact IH. Qed.

(** With a decoder whose ready test ends, the loop gets through the
    datagrams in front of the first packet it cannot accept. *)
Lemma serve_parsed_prefix :
  (∀ d : D, ∃ k, is_Some (drain k d)) →
  ∀ ps m (dec : D),
    incoming m = ps →
    control m = Receiving dec →
    ∃ n, wire_view (run n m).1 = flat_map ack_then_add (parsed_prefix ps).
Proof.
  intros Hdrain ps. induction ps as [|[b [raw|]] ps IH]; intros m dec Hin Hc;
    [by exists 0| |by exists 0].
  simpl parsed_prefix.
  destruct (parse_datagram raw) as [d|] eqn:Hp; [|by exists 0].
  assert (Hone : run 1 m = ([Send (serialize_ack (AckMsg_of d))]
                             ++ (if log_acks m
                                 then [LogAcked (frame_id d) (frag_id d)] else [])
                             ++ [AddDatagram d],
                            goto m (Draining (add_datagram dec d)) ps)).
  { cbn [run]. unfold step. rewrite Hc, Hin, Hp. by rewrite app_nil_r. }
  destruct (Hdrain (add_datagram dec d)) as [k [[c dec1] Hk]].
  set (m1 := goto m (Draining (add_datagram dec d)) ps) in *.
  pose proof (drain_run k _ _ m1 c Hk eq_refl) as Hdr.
  set (m2 := goto m1 (Receiving dec1) (incoming m1)) in Hdr.
  destruct (IH m2 dec1 eq_refl eq_refl) as [n2 Hn2].
  exists (1 + (S c + n2)).
  rewrite (run_plus 1 (S c + n2) m), Hone. cbn [fst snd].
  rewrite (run_plus (S c) n2 m1), Hdr. cbn [fst snd].
  rewrite !wire_view_app, wire_view_consumes, Hn2. simpl flat_map.
  unfold ack_then_add at 1. by destruct (log_acks m).
Qed.

End LoopFacts.

(** * The acknowledgment of fragments *)

Section AckClaim.
Import Receiver.
Local Open Scope nat_scope.
Context `{Codec} {D : Type} `{DecoderOps D}.
Implicit Types (m : Machine (D := D)) (ps : list Packet) (tr : list action).

(** C2. The steady-state loop acknowledges each datagram that parses once,
    before it hands it to the decoder, and acknowledges nothing else,
    whatever the decoder does.
    - However long the loop runs, the packets it has read split off the
      front of the socket, and its sends and decoder hand-overs are exactly
      one acknowledgment followed by one [add_datagram] for each datagram
      that parsed, in arrival order.  The acknowledgment echoes the frame
      id and the fragment index of its datagram.
    - A datagram that parses at the head of the socket is read: the first
      thing the loop does is send its acknowledgment, and the next call on
      the decoder hands it over.
    - A datagram at the head of the socket that does not parse gets no
      acknowledgment, nor does anything behind it.
    - When the decoder's ready test always ends, some run acknowledges and
      hands over every datagram in front of the first packet the loop
      cannot accept. *)
Theorem every_fragment_acked_once n m :
  incoming m = consumed m (run n m).2 ++ incoming (run n m).2
  ∧ wire_view (run n m).1
    = flat_map ack_then_add (parsed_prefix (consumed m (run n m).2))
  ∧ sends (run n m).1
    = (λ d, serialize_ack (AckMsg_of d)) <$> parsed_prefix (consumed m (run n m).2)
  ∧ added (run n m).1 = parsed_prefix (consumed m (run n m).2)
  ∧ (∀ d, ack_frame_id (AckMsg_of d) = frame_id d
          ∧ ack_frag_id (AckMsg_of d) = frag_id d)
  ∧ (∀ (dec : D) a raw d rest,
       control m = Receiving dec →
       incoming m = (a, Some raw) :: rest →
       parse_datagram raw = Some d →
       ∃ ps tr,
         consumed m (run (S n) m).2 = (a, Some raw) :: ps
         ∧ (run (S n) m).1
           = Send (serialize_ack (AckMsg_of d))
               :: (if log_acks m then [LogAcked (frame_id d) (frag_id d)] else [])
               ++ AddDatagram d :: tr)
  ∧ (∀ (dec : D) a raw rest,
       control m = Receiving dec →
       incoming m = (a, Some raw) :: rest →
       parse_datagram raw = None →
       sends (run n m).1 = [])
  ∧ ((∀ d : D, ∃ k, is_Some (drain k d)) →
     ∀ dec : D,
       control m = Receiving dec →
       ∃ n', wire_view (run n' m).1
             = flat_map ack_then_add (parsed_prefix (incoming m))).
Proof.
  destruct (run_wire n m) as (ps & Hin & Hw).
  rewrite (consumed_split m _ ps Hin).
  split; [done|]. split; [done|].
  split; [by rewrite <- sends_wire_view, Hw, sends_ack_then_add|].
  split; [by rewrite <- added_wire_view, Hw, added_ack_then_add|].
  split; [done|].
  split; [|split].
  - intros dec a raw d rest Hc Hinc Hp.
    assert (Hstep : step m =
                    Some ([Send (serialize_ack (AckMsg_of d))]
                            ++ (if log_acks m
                                then [LogAcked (frame_id d) (frag_id d)] else [])
                            ++ [AddDatagram d],
                          goto m (Draining (add_datagram dec d)) rest)).
    { unfold step. by rewrite Hc, Hinc, Hp. }
    destruct (run_wire n (goto m (Draining (add_datagram dec d)) rest))
      as (ps2 & Hin2 & _).
    simpl incoming in Hin2 at 1.
    exists ps2, (run n (goto m (Draining (add_datagram dec d)) rest)).1.
    cbn [run]. rewrite Hstep.
    destruct (run n (goto m (Draining (add_datagram dec d)) rest)) as [tr2 m2].
    cbn [fst snd] in *. split.
    + apply consumed_split. by rewrite Hinc, Hin2.
    + by rewrite <- !app_assoc.
  - intros dec a raw rest Hc Hinc Hp. destruct n as [|n']; [done|].
    cbn [run]. unfold step. rewrite Hc, Hinc, Hp.
    by rewrite run_goto_thrown.
  - intros Hdrain dec Hc. by apply (serve_parsed_prefix Hdrain _ m dec).
Qed.

End AckClaim.

(** * The session as a whole *)

Section SessionFacts.
Import Receiver.
Local Open Scope nat_scope.
Context `{Conversion} `{Codec} {D : Type} `{DecoderOps D}.
Implicit Types (m : Machine (D := D)) (ps : list Packet) (tr : list action).

Lemma sends_trace_app tr tr' : sends (tr ++ tr') = sends tr ++ sends tr'.
Proof. apply omap_app. Qed.

Lemma no_send_sends tr : Forall (λ a, ¬ is_send a) tr → sends tr = [].
Proof.
  induction 1 as [|a tr Ha _ IH]; [done|].
  destruct a; simpl; try exact IH. by destruct Ha.
Qed.

(** X17. Over a whole session, from the command line on, the datagrams
    [main] has sent are the acknowledgments of the datagrams that arrived
    behind the first config, in order and up to the first one that does not
    parse; what arrived before the config is never acknowledged, however
    long the session lasts. *)
Theorem session_acknowledges_after_config
    (prog : string) (rs : list (Z * string)) (o : Options)
    (port_arg : string) (p : Z) (port : N)
    (pre : list Packet) (a : Address) (raw : list byte) (c : ConfigMsg)
    (rest : list Packet) :
  parse_options rs default_options = Parsed o →
  strict_stoi port_arg = Some p →
  narrow_cast_uint16 p = Some port →
  Forall discardable pre →
  config_of raw = Some c →
  ∃ m,
    (main prog rs [port_arg] (pre ++ (a, Some raw) :: rest)).2 = Started m
    ∧ ∀ n, ∃ ps,
        rest = ps ++ incoming (run n m).2
        ∧ sends ((main prog rs [port_arg] (pre ++ (a, Some raw) :: rest)).1
                   ++ (run n m).1)
          = (λ d, serialize_ack (AckMsg_of d)) <$> parsed_prefix ps.
Proof.
  intros Hrs Hp Hport Hpre Hc.
  pose proof (start_no_send prog o [port_arg] (pre ++ (a, Some raw) :: rest)) as Hns.
  rewrite (main_parsed _ _ _ _ _ Hrs). revert Hns. unfold start.
  rewrite Hp, Hport, recv_config_msg_skip, recv_config_msg_cons, Hc by done.
  intros Hns. eexists. split; [done|].
  intros n.
  match goal with |- ∃ ps, _ = ps ++ incoming (run n ?m0).2 ∧ _ =>
    destruct (run_wire n m0) as (ps & Hin & Hw) end.
  exists ps. split; [exact Hin|].
  rewrite sends_trace_app, (no_send_sends _ Hns). simpl app.
  by rewrite <- sends_wire_view, Hw, sends_ack_then_add.
Qed.

(** X18. With valid arguments and no config among the packets that arrive,
    [main] binds the socket to the given port on address "0", logs, and
    stays in the handshake: it never connects and never sends. *)
Theorem no_config_keeps_waiting
    (prog : string) (rs : list (Z * string)) (o : Options)
    (port_arg : string) (p : Z) (port : N) (inc : list Packet) :
  parse_options rs default_options = Parsed o →
  strict_stoi port_arg = Some p →
  narrow_cast_uint16 p = Some port →
  Forall discardable inc →
  main (D := D) prog rs [port_arg] inc
  = ([Bind {| ip := "0"; port := port |};
      LogLocalAddress {| ip := "0"; port := port |};
      LogWaiting],
     Waiting).
Proof.
  intros Hrs Hp Hport Hinc. rewrite (main_parsed _ _ _ _ _ Hrs). unfold start.
  by rewrite Hp, Hport, (recv_config_msg_all_skipped inc Hinc).
Qed.

End SessionFacts.

(** * The program on the sample decoder *)

Section SampleProgram.
Import Reassembly Receiver Sample.

Lemma replay_snoc (ds : list Datagram) (d : Datagram) :
  replay (ds ++ [d]) =
    (Some (ingest_fragment (default (initial_state d) (replay ds).1) d).1,
     (replay ds).2
       ++ option_list (ingest_fragment (default (initial_state d) (replay ds).1) d).2).
Proof.
  destruct ds as [|f ds].
  - simpl app. unfold replay. rewrite ingest_all_cons. simpl.
    by rewrite app_nil_r.
  - rewrite <- app_comm_cons. unfold replay.
    rewrite (app_comm_cons ds [d] f), ingest_all_app. simpl default.
    rewrite (ingest_all_cons _ d []). simpl. by rewrite app_nil_r.
Qed.

Lemma sample_add_follows (dec : Decoder) (ds : list Datagram) (d : Datagram) :
  (engine dec, history dec) = replay ds →
  (engine (sample_add dec d), history (sample_add dec d)) = replay (ds ++ [d]).
Proof.
  intros Hrep. rewrite replay_snoc, <- Hrep. simpl.
  unfold sample_add, history.
  destruct (ingest_fragment _ d) as [st ev]; simpl. by rewrite app_assoc.
Qed.

Lemma sample_consume_history (dec : Decoder) :
  engine (sample_consume dec) = engine dec
  ∧ history (sample_consume dec) = history dec.
Proof.
  unfold sample_consume, history.
  destruct (ready dec) as [|ev evs] eqn:Hr; simpl; [by rewrite Hr|].
  by rewrite <- app_assoc.
Qed.

Lemma step_follows (m m' : Machine) (tr : list action) (ds : list Datagram) :
  follows m ds → step m = Some (tr, m') → follows m' (ds ++ added tr).
Proof.
  unfold follows, step. intros Hf Hs.
  destruct (control m) as [dec|dec|e]; [| |done].
  - destruct (incoming m) as [|[a [raw|]] rest]; [done| |by simplify_eq].
    destruct (parse_datagram raw) as [d|]; simplify_eq; [|done].
    simpl control. replace (added _) with [d] by (by destruct (log_acks m)).
    by apply sample_add_follows.
  - simpl in Hs. destruct (ready dec) as [|ev evs] eqn:Hr; simplify_eq; simpl.
    + by rewrite app_nil_r.
    + rewrite app_nil_r.
      destruct (sample_consume_history dec) as [He Hh]. by rewrite He, Hh.
Qed.

Lemma added_app (tr tr' : list action) : added (tr ++ tr') = added tr ++ added tr'.
Proof. apply omap_app. Qed.

Lemma run_follows (n : nat) (m : Machine) (ds : list Datagram) :
  follows m ds → follows (run n m).2 (ds ++ added (run n m).1).
Proof.
  revert m ds. induction n as [|n IH]; intros m ds Hf.
  { simpl. by rewrite app_nil_r. }
  simpl. destruct (step m) as [[tr m1]|] eqn:Hs.
  - pose proof (IH m1 _ (step_follows m m1 tr ds Hf Hs)) as IH1.
    destruct (run n m1) as [tr2 m2]; simpl in *.
    by rewrite added_app, app_assoc.
  - simpl. by rewrite app_nil_r.
Qed.

(** On the sample decoder, the frames the main loop has consumed after any
    number of steps are a prefix of the completion events of the datagrams
    handed over, so their frame ids are strictly increasing. *)
Lemma sample_decoder_delivers_in_order (n : nat) (inc : list Packet) :
  delivered_frames (run n (steady inc)).2
    `prefix_of` session_events (added (run n (steady inc)).1)
  ∧ StronglySorted N.lt (ev_frame_id <$> delivered_frames (run n (steady inc)).2).
Proof.
  assert (Hf : follows (run n (steady inc)).2 ([] ++ added (run n (steady inc)).1))
    by (by apply run_follows).
  simpl app in Hf.
  assert (Hpre : delivered_frames (run n (steady inc)).2
                   `prefix_of` session_events (added (run n (steady inc)).1)).
  { unfold follows, delivered_frames in *.
    destruct (control (run n (steady inc)).2) as [dec|dec|e];
      [| |apply prefix_nil];
      (assert (Hh : history dec = (replay (added (run n (steady inc)).1)).2)
         by (by rewrite <- Hf));
      (replace (session_events _) with (history dec)
         by (rewrite Hh; unfold replay, session_events; by destruct (added _)));
      by exists (ready dec). }
  split; [done|].
  destruct Hpre as [rest Hrest].
  pose proof (proj2 (delivery_order_helper (added (run n (steady inc)).1))) as Hs.
  rewrite Hrest, fmap_app in Hs. by apply StronglySorted_app_1_l in Hs.
Qed.

End SampleProgram.

(** * Concrete runs *)

Section ConcreteRuns.
Import Reassembly Receiver Sample.

(** C1 as the spec states it fails on a malformed datagram of three
    bytes: the program does not drop it and go on with the next packet. *)
Lemma malformed_datagram_not_dropped :
  parse_datagram malformed3 = None
  ∧ ¬ drops_and_continues (steady bad_then_good) [good_packet].
Proof.
  split; [reflexivity|].
  unfold drops_and_continues. intros Heq. vm_compute in Heq. discriminate Heq.
Qed.

Lemma malformed_datagram_throws_witness :
  (control (steady bad_then_good) = Receiving fresh_decoder
   ∧ incoming (steady bad_then_good) = (sender, Some malformed3) :: [good_packet]
   ∧ parse_datagram malformed3 = None)
  ∧ run 4 (steady bad_then_good) =
      ([], goto (steady bad_then_good)
                (Thrown (runtime_error "failed to parse a datagram")) [good_packet]).
Proof.
  split; [repeat split|].
  apply (malformed_datagram_throws (steady bad_then_good) fresh_decoder sender
           malformed3 [good_packet] 3); reflexivity.
Defined.

Lemma newer_completion_abandons_witness :
  (partial_frames tracking_frame0 !! 0%N
     = Some {| fragments := {[ 0%N := ["A"%byte] ]};
               pf_fragment_count := 2; received := 1 |}
   ∧ frame_id (frag 1 0 1 "B") = (0 + 1)%N
   ∧ ingest_fragment tracking_frame0 (frag 1 0 1 "B")
     = ({| expected_frame_id := 2; partial_frames := ∅ |},
        Some {| ev_frame_id := 1; assembled_bytes := ["B"%byte] |}))
  ∧ (ev_frame_id {| ev_frame_id := 1; assembled_bytes := ["B"%byte] |} = (0 + 1)%N
     ∧ expected_frame_id {| expected_frame_id := 2; partial_frames := ∅ |} = (0 + 2)%N
     ∧ partial_frames {| expected_frame_id := 2; partial_frames := ∅ |} !! 0%N = None
     ∧ Forall (λ e, ev_frame_id e ≠ 0%N)
         (ingest_all {| expected_frame_id := 2; partial_frames := ∅ |}
                     [frag 0 1 2 "C"]).2).
Proof.
  split; [repeat split; vm_compute; reflexivity|].
  apply (newer_completion_abandons tracking_frame0
           {| expected_frame_id := 2; partial_frames := ∅ |}
           (frag 1 0 1 "B")
           {| ev_frame_id := 1; assembled_bytes := ["B"%byte] |}
           0%N
           {| fragments := {[ 0%N := ["A"%byte] ]};
              pf_fragment_count := 2; received := 1 |}
           [frag 0 1 2 "C"]); vm_compute; reflexivity.
Defined.

Lemma expected_monotone_stale_rejected_witness :
  (frame_id (frag 0 0 1 "A") < expected_frame_id after_frame0)%N
  ∧ ingest_fragment after_frame0 (frag 0 0 1 "A") = (after_frame0, None).
Proof.
  split; [reflexivity|].
  apply (expected_monotone_stale_rejected after_frame0 (frag 0 0 1 "A")).
  reflexivity.
Defined.



Lemma handshake_locks_first_config_witness :
  (Forall discardable early_packets
   ∧ config_of config_bytes
     = Some {| width := 640; height := 480; frame_rate := 30;
               target_bitrate := 500000 |}
   ∧ strict_stoi "9000" = Some 9000%Z
   ∧ narrow_cast_uint16 9000%Z = Some 9000%N)
  ∧ recv_config_msg early_packets = Block
  ∧ recv_config_msg (early_packets ++ (sender, Some config_bytes) :: [good_packet])
    = Ok (sender,
          {| width := 640; height := 480; frame_rate := 30;
             target_bitrate := 500000 |},
          [good_packet])
  ∧ ∃ tr (m : Machine (D := Decoder)),
      start program default_options ["9000"%string]
            (early_packets ++ (sender, Some config_bytes) :: [good_packet])
      = (tr, Started m)
      ∧ Connect sender ∈ tr
      ∧ peer m = sender
      ∧ incoming m = [good_packet]
      ∧ ∀ n, peer (run n m).2 = sender.
Proof.
  assert (Hearly : Forall discardable early_packets).
  { repeat (constructor; [eexists; split; reflexivity|]). constructor. }
  split; [repeat split; [exact Hearly|reflexivity..]|].
  apply (handshake_locks_first_config early_packets sender config_bytes
           {| width := 640; height := 480; frame_rate := 30;
              target_bitrate := 500000 |}
           [good_packet] program default_options "9000"%string 9000%Z 9000%N);
    [exact Hearly|reflexivity..].
Defined.

Lemma handshake_discards_silently_witness :
  (Forall discardable early_packets
   ∧ is_Some (parse_datagram (fragment_bytes 0 0 1 "A")))
  ∧ main (D := Decoder) program [] ["9000"%string]
         (early_packets ++ [(sender, Some config_bytes)])
    = main program [] ["9000"%string] [(sender, Some config_bytes)]
  ∧ Forall (λ a, ¬ is_send a)
      (main (D := Decoder) program [] ["9000"%string]
            (early_packets ++ [(sender, Some config_bytes)])).1.
Proof.
  assert (Hearly : Forall discardable early_packets).
  { repeat (constructor; [eexists; split; reflexivity|]). constructor. }
  split; [split; [exact Hearly|by eexists]|].
  apply (handshake_discards_silently program [] ["9000"%string] early_packets
           [(sender, Some config_bytes)] Hearly).
Defined.

Lemma lazy_level_unchecked_witness :
  (parse_options [(opt_v, ""%string)] default_options
     = Parsed {| lazy_level := 0; output_path := ""; verbose := true |}
   ∧ strict_stoi "7" = Some 7%Z
   ∧ strict_stoi "9000" = Some 9000%Z
   ∧ narrow_cast_uint16 9000%Z = Some 9000%N
   ∧ config_of config_bytes
     = Some {| width := 640; height := 480; frame_rate := 30;
               target_bitrate := 500000 |})
  ∧ parse_options ([(opt_v, ""%string)] ++ [(opt_L, "7"%string)]) default_options
    = Parsed {| lazy_level := 7; output_path := ""; verbose := true |}
  ∧ (main program ([(opt_v, ""%string)] ++ [(opt_L, "7"%string)]) ["9000"%string]
          ((sender, Some config_bytes) :: [good_packet])).2
    = Started {| control := Receiving (sample_set_verbose (sample_new 640 480 7 "") true);
                 incoming := [good_packet];
                 peer := sender;
                 log_acks := true |}.
Proof.
  split; [repeat split|].
  exact (lazy_level_unchecked (D := Decoder) program [(opt_v, ""%string)]
           {| lazy_level := 0; output_path := ""; verbose := true |}
           "7"%string 7%Z "9000"%string 9000%Z 9000%N sender config_bytes
           {| width := 640; height := 480; frame_rate := 30;
              target_bitrate := 500000 |}
           [good_packet] eq_refl eq_refl eq_refl eq_refl eq_refl).
Defined.

(** Frame 0 gets fragment 0 of 2, then frame 1 completes with its single
    fragment: only frame 1 is delivered, and the late fragment of frame 0
    changes nothing. *)
Example scenario_abandon :
  session_events [frag 0 0 2 "A"; frag 1 0 1 "B"; frag 0 1 2 "C"]
  = [ {| ev_frame_id := 1; assembled_bytes := ["B"%byte] |} ].
Proof. vm_compute. reflexivity. Qed.

(** The scenarios of the spec on the sample decoder: three fragments of
    frame 0 arriving as 1, 0, 2 give three acknowledgments and one
    delivered frame with the payloads in index order. *)
Example scenario_102 :
  let packets := (λ f, (sender, Some (fragment_bytes (frame_id f) (frag_id f)
                                         (fragment_count f)
                                         (default x00 (head (payload_bytes f))))))
                   <$> arrival_102 in
  length (sends (run 10 (steady packets)).1) = 3%nat
  ∧ (match control (run 10 (steady packets)).2 with
     | Receiving dec => delivered dec
     | _ => []
     end) = [ {| ev_frame_id := 0; assembled_bytes := ["a"; "b"; "c"]%byte |} ].
Proof. vm_compute. split; reflexivity. Qed.

End ConcreteRuns.

(** * Concrete runs of the further properties *)

Section ExtraRuns.
Import Reassembly Receiver Sample.
Local Open Scope nat_scope.

Lemma sample_drain_S (k : nat) (d : Decoder) :
  drain (S k) d =
    match ready d with
    | [] => Some (0, d)
    | _ :: _ =>
        match drain k (sample_consume d) with
        | Some (c, d') => Some (S c, d')
        | None => None
        end
    end.
Proof. simpl. unfold sample_next_complete. by destruct (ready d). Qed.

(** The sample decoder's ready test says no once its queue is empty. *)
Lemma sample_drain_terminates (d : Decoder) : ∃ k, is_Some (drain k d).
Proof.
  exists (S (length (ready d))).
  remember (ready d) as l eqn:Hl. revert d Hl.
  induction l as [|ev evs IH]; intros d Hl.
  - rewrite sample_drain_S, <- Hl. by eexists.
  - rewrite sample_drain_S, <- Hl.
    assert (Hr : evs = ready (sample_consume d)).
    { unfold sample_consume. by rewrite <- Hl. }
    destruct (IH (sample_consume d) Hr) as [[c d'] Hd].
    cbn [length]. rewrite Hd. by eexists.
Qed.

Lemma every_fragment_acked_once_witness :
  (control (steady (good_packet :: bad_then_good)) = Receiving fresh_decoder
   ∧ incoming (steady (good_packet :: bad_then_good))
     = (sender, Some (fragment_bytes 0 0 1 "A")) :: bad_then_good
   ∧ parse_datagram (fragment_bytes 0 0 1 "A") = Some (frag 0 0 1 "A")
   ∧ ∀ d : Decoder, ∃ k, is_Some (drain k d))
  ∧ (∃ ps tr,
       consumed (steady (good_packet :: bad_then_good))
                (run 10 (steady (good_packet :: bad_then_good))).2
       = (sender, Some (fragment_bytes 0 0 1 "A")) :: ps
       ∧ (run 10 (steady (good_packet :: bad_then_good))).1
         = Send (serialize_ack (AckMsg_of (frag 0 0 1 "A")))
             :: (if log_acks (steady (good_packet :: bad_then_good))
                 then [LogAcked (frame_id (frag 0 0 1 "A")) (frag_id (frag 0 0 1 "A"))]
                 else [])
             ++ AddDatagram (frag 0 0 1 "A") :: tr)
  ∧ (∃ n', wire_view (run n' (steady (good_packet :: bad_then_good))).1
           = flat_map ack_then_add
               (parsed_prefix (incoming (steady (good_packet :: bad_then_good))))).
Proof.
  split; [repeat split; exact sample_drain_terminates|].
  destruct (every_fragment_acked_once 9 (steady (good_packet :: bad_then_good)))
    as (_ & _ & _ & _ & _ & Hhead & _ & Hall).
  split.
  - apply (Hhead fresh_decoder sender (fragment_bytes 0 0 1 "A") (frag 0 0 1 "A")
             bad_then_good); reflexivity.
  - apply (Hall sample_drain_terminates fresh_decoder). reflexivity.
Defined.

(** Three fragments of one frame arriving as 1, 0, 2, on the wire. *)
Example three_fragments_three_acks :
  sends (run 10 (steady [(sender, Some (fragment_bytes 0 1 3 "b"));
                         (sender, Some (fragment_bytes 0 0 3 "a"));
                         (sender, Some (fragment_bytes 0 2 3 "c"))])).1
  = [encode_ack {| ack_frame_id := 0; ack_frag_id := 1; ack_ts := 0 |};
     encode_ack {| ack_frame_id := 0; ack_frag_id := 0; ack_ts := 0 |};
     encode_ack {| ack_frame_id := 0; ack_frag_id := 2; ack_ts := 0 |}].
Proof. vm_compute. reflexivity. Qed.

Lemma unknown_option_prints_usage_witness :
  (parse_options [(opt_v, EmptyString)] default_options
     = Parsed {| lazy_level := 0; output_path := EmptyString; verbose := true |}
   ∧ 63%Z ≠ (-1)%Z ∧ 63%Z ≠ opt_L ∧ 63%Z ≠ opt_o ∧ 63%Z ≠ opt_v)
  ∧ (main (D := Decoder) program
          ([(opt_v, EmptyString)] ++ (63%Z, EmptyString) :: [(opt_L, "1"%string)])
          ["9000"%string] []).2
    = Exit EXIT_FAILURE
  ∧ PrintUsage (usage_text program)
    ∈ (main (D := Decoder) program
            ([(opt_v, EmptyString)] ++ (63%Z, EmptyString) :: [(opt_L, "1"%string)])
            ["9000"%string] []).1
  ∧ Forall (λ a, ¬ is_socket_action a)
      (main (D := Decoder) program
            ([(opt_v, EmptyString)] ++ (63%Z, EmptyString) :: [(opt_L, "1"%string)])
            ["9000"%string] []).1.
Proof.
  split; [repeat split; discriminate|].
  apply (unknown_option_prints_usage (D := Decoder) program
           [(opt_v, EmptyString)] [(opt_L, "1"%string)] 63%Z EmptyString
           {| lazy_level := 0; output_path := EmptyString; verbose := true |}
           ["9000"%string] []); [reflexivity|discriminate..].
Defined.

Lemma last_lazy_option_decides_witness :
  (parse_options ([(opt_L, "1"%string)] ++ (opt_L, "7"%string) :: [(opt_v, EmptyString)])
                 default_options
     = Parsed {| lazy_level := 7; output_path := EmptyString; verbose := true |}
   ∧ strict_stoi "7" = Some 7%Z
   ∧ Forall (λ r : Z * string, r.1 ≠ opt_L) [(opt_v, EmptyString)])
  ∧ lazy_level {| lazy_level := 7; output_path := EmptyString; verbose := true |}
    = 7%Z.
Proof.
  assert (Hrest : Forall (λ r : Z * string, r.1 ≠ opt_L) [(opt_v, EmptyString)])
    by (repeat constructor; discriminate).
  split; [repeat split; first [exact Hrest|reflexivity]|].
  apply (last_lazy_option_decides [(opt_L, "1"%string)] [(opt_v, EmptyString)]
           "7"%string 7%Z default_options
           {| lazy_level := 7; output_path := EmptyString; verbose := true |});
    first [exact Hrest|reflexivity].
Defined.

Lemma wrong_positional_count_prints_usage_witness :
  (parse_options [] default_options = Parsed default_options
   ∧ length ["9000"%string; "9001"%string] ≠ 1)
  ∧ main (D := Decoder) program [] ["9000"%string; "9001"%string] []
    = (print_usage program, Exit EXIT_FAILURE).
Proof.
  split; [split; [reflexivity|discriminate]|].
  apply (wrong_positional_count_prints_usage (D := Decoder) program []
           default_options ["9000"%string; "9001"%string] []);
    [reflexivity|discriminate].
Defined.

Lemma option_loop_preserves_witness :
  parse_options [(opt_v, EmptyString); (opt_o, "out.csv"%string)] default_options
    = Parsed {| lazy_level := 0; output_path := "out.csv"; verbose := true |}
  ∧ lazy_level {| lazy_level := 0; output_path := "out.csv"; verbose := true |}
    = lazy_level default_options.
Proof.
  split; [reflexivity|].
  apply (option_loop_preserves [(opt_v, EmptyString); (opt_o, "out.csv"%string)]
           default_options
           {| lazy_level := 0; output_path := "out.csv"; verbose := true |}
           eq_refl).
  repeat constructor; discriminate.
Defined.

Lemma bad_lazy_argument_throws_witness :
  (parse_options [] default_options = Parsed default_options
   ∧ strict_stoi "fast" = None)
  ∧ main (D := Decoder) program ([] ++ (opt_L, "fast"%string) :: [])
         ["9000"%string] []
    = ([], Uncaught conversion_error).
Proof.
  split; [split; reflexivity|].
  apply (bad_lazy_argument_throws (D := Decoder) program [] [] "fast"%string
           default_options ["9000"%string] []); reflexivity.
Defined.

Lemma bad_port_throws_before_bind_witness :
  (parse_options [] default_options = Parsed default_options
   ∧ (strict_stoi "70000" = None
      ∨ ∃ p, strict_stoi "70000" = Some p ∧ narrow_cast_uint16 p = None))
  ∧ main (D := Decoder) program [] ["70000"%string] []
    = ([], Uncaught conversion_error).
Proof.
  assert (Hbad : strict_stoi "70000" = None
                 ∨ ∃ p, strict_stoi "70000" = Some p ∧ narrow_cast_uint16 p = None).
  { right. exists 70000%Z. split; reflexivity. }
  split; [split; [reflexivity|exact Hbad]|].
  apply (bad_port_throws_before_bind (D := Decoder) program [] default_options
           "70000"%string [] eq_refl Hbad).
Defined.

Lemma handshake_returns_iff_witness :
  (∃ pre raw,
     early_packets ++ [(sender, Some config_bytes); good_packet]
     = pre ++ (sender, Some raw) :: [good_packet]
     ∧ Forall discardable pre
     ∧ config_of raw = Some config_640x480)
  ∧ recv_config_msg (early_packets ++ [(sender, Some config_bytes); good_packet])
    = Ok (sender, config_640x480, [good_packet]).
Proof.
  assert (Hrhs : ∃ pre raw,
             early_packets ++ [(sender, Some config_bytes); good_packet]
             = pre ++ (sender, Some raw) :: [good_packet]
             ∧ Forall discardable pre
             ∧ config_of raw = Some config_640x480).
  { exists early_packets, config_bytes. split; [reflexivity|]. split; [|reflexivity].
    repeat (constructor; [eexists; split; reflexivity|]). constructor. }
  split; [exact Hrhs|].
  apply (proj2 (handshake_returns_iff
                  (early_packets ++ [(sender, Some config_bytes); good_packet])
                  sender config_640x480 [good_packet]) Hrhs).
Defined.

Lemma handshake_waits_iff_witness :
  Forall discardable early_packets ∧ recv_config_msg early_packets = Block.
Proof.
  assert (Hearly : Forall discardable early_packets).
  { repeat (constructor; [eexists; split; reflexivity|]). constructor. }
  split; [exact Hearly|].
  apply (proj2 (handshake_waits_iff early_packets) Hearly).
Defined.

Lemma handshake_throws_iff_witness :
  recv_config_msg (early_packets ++ [(sender, None); (sender, Some config_bytes)])
    = Throw bad_optional_access
  ∧ (bad_optional_access = bad_optional_access
     ∧ ∃ pre b rest,
         early_packets ++ [(sender, None); (sender, Some config_bytes)]
         = pre ++ (b, None) :: rest
         ∧ Forall discardable pre).
Proof.
  split; [reflexivity|].
  apply (proj1 (handshake_throws_iff
                  (early_packets ++ [(sender, None); (sender, Some config_bytes)])
                  bad_optional_access)).
  reflexivity.
Defined.

Lemma main_exits_only_with_usage_witness :
  (main (D := Decoder) program [(63%Z, EmptyString)] ["9000"%string] []).2 = Exit 1
  ∧ (1%Z = EXIT_FAILURE
     ∧ PrintUsage (usage_text program)
       ∈ (main (D := Decoder) program [(63%Z, EmptyString)] ["9000"%string] []).1
     ∧ Forall (λ a, ¬ is_socket_action a)
         (main (D := Decoder) program [(63%Z, EmptyString)] ["9000"%string] []).1).
Proof.
  split; [reflexivity|].
  apply (main_exits_only_with_usage (D := Decoder) program
           [(63%Z, EmptyString)] ["9000"%string] [] 1%Z).
  reflexivity.
Defined.

Lemma well_formed_traffic_never_throws_witness :
  (¬ is_thrown (control (steady [good_packet; good_packet]))
   ∧ Forall parses (incoming (steady [good_packet; good_packet])))
  ∧ ¬ is_thrown (control (run 10 (steady [good_packet; good_packet])).2).
Proof.
  assert (Hall : Forall parses (incoming (steady [good_packet; good_packet]))).
  { repeat (constructor; [eexists _, _; split; reflexivity|]). constructor. }
  split; [split; [exact (λ x, x)|exact Hall]|].
  apply (well_formed_traffic_never_throws 10 (steady [good_packet; good_packet])
           (λ x, x) Hall).
Defined.

Lemma loop_throws_at_first_bad_packet_witness :
  (¬ is_thrown (control (steady (good_packet :: bad_then_good)))
   ∧ control (run 10 (steady (good_packet :: bad_then_good))).2
     = Thrown (runtime_error "failed to parse a datagram"))
  ∧ ∃ ps b r rest,
      incoming (steady (good_packet :: bad_then_good)) = ps ++ (b, r) :: rest
      ∧ incoming (run 10 (steady (good_packet :: bad_then_good))).2 = rest
      ∧ Forall parses ps
      ∧ ((r = None
          ∧ runtime_error "failed to parse a datagram" = bad_optional_access)
         ∨ (∃ raw, r = Some raw ∧ parse_datagram raw = None
                   ∧ runtime_error "failed to parse a datagram"
                     = runtime_error "failed to parse a datagram")).
Proof.
  split; [split; [exact (λ x, x)|reflexivity]|].
  apply (loop_throws_at_first_bad_packet 10 (steady (good_packet :: bad_then_good))
           (runtime_error "failed to parse a datagram") (λ x, x)).
  reflexivity.
Defined.

Lemma drain_only_consumes_witness :
  (drain 2 one_ready = Some (1, sample_consume one_ready)
   ∧ control (draining one_ready [good_packet]) = Draining one_ready)
  ∧ run 2 (draining one_ready [good_packet])
    = (repeat ConsumeFrame 1,
       goto (draining one_ready [good_packet])
            (Receiving (sample_consume one_ready))
            (incoming (draining one_ready [good_packet]))).
Proof.
  split; [split; reflexivity|].
  apply (drain_only_consumes 2 1 one_ready (sample_consume one_ready)
           (draining one_ready [good_packet])); reflexivity.
Defined.

Lemma loop_serves_all_traffic_witness :
  ((∀ d : Decoder, ∃ k, is_Some (drain k d))
   ∧ control (steady [good_packet; good_packet]) = Receiving fresh_decoder
   ∧ Forall parses (incoming (steady [good_packet; good_packet])))
  ∧ ∃ n dec',
      control (run n (steady [good_packet; good_packet])).2 = Receiving dec'
      ∧ incoming (run n (steady [good_packet; good_packet])).2 = []
      ∧ added (run n (steady [good_packet; good_packet])).1
        = parsed_prefix (incoming (steady [good_packet; good_packet]))
      ∧ length (added (run n (steady [good_packet; good_packet])).1)
        = length (incoming (steady [good_packet; good_packet])).
Proof.
  assert (Hall : Forall parses (incoming (steady [good_packet; good_packet]))).
  { repeat (constructor; [eexists _, _; split; reflexivity|]). constructor. }
  split; [split; [exact sample_drain_terminates|split; [reflexivity|exact Hall]]|].
  apply (loop_serves_all_traffic (steady [good_packet; good_packet]) fresh_decoder
           sample_drain_terminates eq_refl Hall).
Defined.

Lemma nothing_before_first_datagram_witness :
  (control (steady bad_then_good) = Receiving fresh_decoder
   ∧ added (run 5 (steady bad_then_good)).1 = [])
  ∧ (run 5 (steady bad_then_good)).1 = [].
Proof.
  split; [split; reflexivity|].
  apply (nothing_before_first_datagram 5 (steady bad_then_good) fresh_decoder);
    reflexivity.
Defined.

Lemma session_acknowledges_after_config_witness :
  (parse_options [] default_options = Parsed default_options
   ∧ strict_stoi "9000" = Some 9000%Z
   ∧ narrow_cast_uint16 9000%Z = Some 9000%N
   ∧ Forall discardable early_packets
   ∧ config_of config_bytes = Some config_640x480)
  ∧ ∃ m : Machine (D := Decoder),
      (main program [] ["9000"%string]
            (early_packets ++ (sender, Some config_bytes) :: bad_then_good)).2
      = Started m
      ∧ ∀ n, ∃ ps,
          bad_then_good = ps ++ incoming (run n m).2
          ∧ sends ((main (D := Decoder) program [] ["9000"%string]
                          (early_packets
                             ++ (sender, Some config_bytes) :: bad_then_good)).1
                     ++ (run n m).1)
            = (λ d, serialize_ack (AckMsg_of d)) <$> parsed_prefix ps.
Proof.
  assert (Hearly : Forall discardable early_packets).
  { repeat (constructor; [eexists; split; reflexivity|]). constructor. }
  split; [repeat split; first [exact Hearly|reflexivity]|].
  apply (session_acknowledges_after_config (D := Decoder) program []
           default_options "9000"%string 9000%Z 9000%N early_packets sender
           config_bytes config_640x480 bad_then_good);
    first [exact Hearly|reflexivity].
Defined.

Lemma no_config_keeps_waiting_witness :
  (parse_options [] default_options = Parsed default_options
   ∧ strict_stoi "9000" = Some 9000%Z
   ∧ narrow_cast_uint16 9000%Z = Some 9000%N
   ∧ Forall discardable early_packets)
  ∧ main (D := Decoder) program [] ["9000"%string] early_packets
    = ([Bind {| ip := "0"; port := 9000 |};
        LogLocalAddress {| ip := "0"; port := 9000 |};
        LogWaiting],
       Waiting).
Proof.
  assert (Hearly : Forall discardable early_packets).
  { repeat (constructor; [eexists; split; reflexivity|]). constructor. }
  split; [repeat split; first [exact Hearly|reflexivity]|].
  apply (no_config_keeps_waiting (D := Decoder) program [] default_options
           "9000"%string 9000%Z 9000%N early_packets);
    first [exact Hearly|reflexivity].
Defined.

End ExtraRuns.
